(** * conflux: finite-field elements and the server side of set reconciliation

    A shallow embedding of
      - the [Zp] type of package [conflux] (constructor, [normalize], [Add],
        [assertZp]), over [Z] for [math/big] integers;
      - the reconciliation session of [recon/peer.go]: the two queues of
        [reconWithClient], [sendRequest], [handleReply], [flushQueue] and the
        loop of [interactWithClient].

    A Go panic is the [Panic] result; a Go [error] value is an [option error]
    returned next to the new state.  The connection is explicit state: what
    the remote will still deliver, and the log of every [WriteMsg] call. *)

From stdpp Require Import base numbers list gmap strings.

Local Open Scope Z_scope.

(** ** Panics and results *)

Inductive panic :=
  | DivisionByZero
  | FieldMismatch (p q : Z)
  | NilDereference.

Inductive result (A : Type) :=
  | Ok (a : A)
  | Panic (e : panic).

Arguments Ok {A} a.
Arguments Panic {A} e.

Definition rbind {A B} (m : result A) (k : A → result B) : result B :=
  match m with
  | Ok a => k a
  | Panic e => Panic e
  end.

Notation "x ←! m ; k" := (rbind m (λ x, k))
  (at level 20, m at level 100, k at level 200, right associativity,
   format "x  ←!  m ;  '/' k").

Definition panics {A} (m : result A) : Prop := ∃ e, m = Panic e.

(** ** Field elements *)

Module Field.

(** [big.Int.Mod] is the Euclidean modulus: the result lies in [0, |y|), and
    a zero divisor panics. *)
Definition big_Mod (x y : Z) : result Z :=
  if decide (y = 0) then Panic DivisionByZero else Ok (x `mod` Z.abs y).

(** [type Zp struct { P *big.Int; Z *big.Int }] *)
Record Zp := mkZp { zpP : Z; zpZ : Z }.

#[global] Instance Zp_eq_dec : EqDecision Zp.
Proof. solve_decision. Defined.

#[global] Instance Zp_countable : Countable Zp :=
  inj_countable' (λ z, (zpP z, zpZ z)) (λ q, mkZp q.1 q.2)
    (λ z, match z with mkZp _ _ => eq_refl end).

(** [zp.Z.Mod(zp.Z, zp.P)]: the receiver's value is replaced. *)
Definition normalize (zp : Zp) : result Zp :=
  z ←! big_Mod (zpZ zp) (zpP zp); Ok (mkZp (zpP zp) z).

Definition NewZp (p n : Z) : result Zp :=
  normalize (mkZp p n).

Definition assertZp (x y : Zp) : result unit :=
  if decide (zpP x = zpP y) then Ok tt
  else Panic (FieldMismatch (zpP x) (zpP y)).

(** [zp.Add(values...)]: the receiver is threaded through the loop; the
    result is the receiver after the last operand. *)
Fixpoint Add (zp : Zp) (values : list Zp) : result Zp :=
  match values with
  | [] => Ok zp
  | v :: rest =>
      _ ←! assertZp zp v;
      zp' ←! normalize (mkZp (zpP zp) (zpZ zp + zpZ v));
      Add zp' rest
  end.

(** The same method on a store of [Zp] objects, where the receiver and the
    operands are pointers and may alias: each operand is read when its turn
    comes, and the receiver is overwritten in place. *)
Fixpoint Add_at (h : gmap nat Zp) (zp : nat) (values : list nat)
  : result (gmap nat Zp) :=
  match values with
  | [] => Ok h
  | v :: rest =>
      match h !! zp, h !! v with
      | Some x, Some y =>
          _ ←! assertZp x y;
          x' ←! normalize (mkZp (zpP x) (zpZ x + zpZ y));
          Add_at (<[zp := x']> h) zp rest
      | _, _ => Panic NilDereference
      end
  end.

(** The helpers of zp_test.go. *)
Definition zp5 (n : Z) : result Zp := NewZp 5 n.
Definition zp7 (n : Z) : result Zp := NewZp 7 n.

End Field.

(** ** The reconciliation session *)

Module Recon.
Import Field.

(** [*Bitstring]: the bits of a prefix, first bit first. *)
Definition Bitstring := list bool.

(** Modelled from the spec: the [ZSet] type of package conflux, a set of
    field elements, insertion order irrelevant, duplicate-free.
    [NewZSet(elements...)] collects its arguments. *)
Definition NewZSet (elements : list Zp) : gset Zp := list_to_set elements.

(** Modelled from the spec: [zs.AddAll(other)], the bulk add of [ZSet]. *)
Definition AddAll (zs other : gset Zp) : gset Zp := zs ∪ other.

(** Modelled from the spec: [ZSetDiff(a, b)], the elements in [a] not in
    [b]. *)
Definition ZSetDiff (a b : gset Zp) : gset Zp := a ∖ b.

(** Modelled from the spec: [zs.Items()], the members of a [ZSet] as a
    slice. *)
Definition Items (zs : gset Zp) : list Zp := elements zs.

(** Modelled from the spec: the [PrefixNode] interface of the prefix tree,
    which the session only reads.  A node is what its six methods return. *)
Module PrefixNode.

#[warnings="-register-all"] Inductive t := mk {
  IsLeaf : bool;
  Size : Z;
  Elements : list Zp;
  SValues : list Zp;
  Children : list t;
  Key : Bitstring
}.

End PrefixNode.

(** Modelled from the spec: the [ReconMsg] union of the wire protocol. *)
Inductive ReconMsg :=
  | Config (Contents : gmap string string)
  | ReconRqstFull (Prefix : Bitstring) (Elements : gset Zp)
  | ReconRqstPoly (Prefix : Bitstring) (Size : Z) (Samples : list Zp)
  | Elements (zs : gset Zp)
  | FullElements (zs : gset Zp)
  | SyncFail
  | Done.

#[global] Instance ReconMsg_eq_dec : EqDecision ReconMsg.
Proof. solve_decision. Defined.

(** The [error] values of the session. *)
Inductive error :=
  | PNodeNotFound
  | SyncfailAtLeaf
  | UnexpectedMessage (m : option ReconMsg)
  | TransportError.

(** [type Recover struct] *)
Record Recover := mkRecover {
  RemoteAddr : string;
  RemoteConfig : gmap string string;
  RemoteElements : list Zp
}.

(** The connection [net.Conn] as the session sees it.
    - [inbound]: the messages the remote delivers, in order; once they are
      exhausted [ReadMsg] fails (end of stream, or the deadline set by
      [accept]);
    - [wfail]: whether the successive [WriteMsg] calls fail ([true]); calls
      beyond the list succeed;
    - [wlog]: every [WriteMsg] call so far, with whether it succeeded. *)
Record Conn := mkConn {
  connRemoteAddr : string;
  inbound : list ReconMsg;
  wfail : list bool;
  wlog : list (ReconMsg * bool)
}.

(** Modelled from the spec: [WriteMsg(conn, msg) error] of the message
    transport. *)
Definition WriteMsg (c : Conn) (msg : ReconMsg) : Conn * option error :=
  match wfail c with
  | true :: w =>
      (mkConn (connRemoteAddr c) (inbound c) w (wlog c ++ [(msg, false)]),
       Some TransportError)
  | false :: w =>
      (mkConn (connRemoteAddr c) (inbound c) w (wlog c ++ [(msg, true)]), None)
  | [] =>
      (mkConn (connRemoteAddr c) (inbound c) [] (wlog c ++ [(msg, true)]), None)
  end.

(** [msgChan := readAllMsgs(conn)]: a goroutine forwards every message read
    to an unbuffered channel and closes the channel when [ReadMsg] fails.
    [<-msgChan] yields the next message, or [nil] ([None]) from the closed
    channel. *)
Definition recv (c : Conn) : option ReconMsg * Conn :=
  match inbound c with
  | [] => (None, c)
  | m :: rest => (Some m, mkConn (connRemoteAddr c) rest (wfail c) (wlog c))
  end.

(** [select { case msg = <-msgChan: hasMsg = true; default: }]: whether the
    reader goroutine has something to hand over is a matter of timing,
    [ready]. *)
Definition tryRecv (ready : bool) (c : Conn) : bool * option ReconMsg * Conn :=
  if ready then let '(msg, c') := recv c in (true, msg, c')
  else (false, None, c).

Record requestEntry := mkRequestEntry {
  node : PrefixNode.t;
  key : Bitstring
}.

Inductive reconState := reconStateBottom | reconStateFlushEnded.

#[global] Instance reconState_eq_dec : EqDecision reconState.
Proof. solve_decision. Defined.

(** [type bottomEntry struct { *requestEntry; state reconState }] *)
Record bottomEntry := mkBottomEntry {
  bottom_requestEntry : option requestEntry;
  state : reconState
}.

(** The part of [Peer] and its [Settings] the session reads. *)
Record Peer := mkPeer {
  MBar : Z;
  MaxOutstandingReconRequests : Z;
  Root : error + PrefixNode.t
}.

Record reconWithClient := mkReconWithClient {
  requestQ : list requestEntry;
  bottomQ : list bottomEntry;
  rcvrSet : gset Zp;
  flushing : bool;
  conn : Conn
}.

Definition set_conn (c : Conn) (rwc : reconWithClient) : reconWithClient :=
  mkReconWithClient (requestQ rwc) (bottomQ rwc) (rcvrSet rwc) (flushing rwc) c.

Definition set_rcvrSet (zs : gset Zp) (rwc : reconWithClient) : reconWithClient :=
  mkReconWithClient (requestQ rwc) (bottomQ rwc) zs (flushing rwc) (conn rwc).

Definition set_flushing (b : bool) (rwc : reconWithClient) : reconWithClient :=
  mkReconWithClient (requestQ rwc) (bottomQ rwc) (rcvrSet rwc) b (conn rwc).

Definition pushBottom (rwc : reconWithClient) (bottom : bottomEntry)
  : reconWithClient :=
  mkReconWithClient (requestQ rwc) (bottomQ rwc ++ [bottom]) (rcvrSet rwc)
    (flushing rwc) (conn rwc).

Definition pushRequest (rwc : reconWithClient) (req : requestEntry)
  : reconWithClient :=
  mkReconWithClient (requestQ rwc ++ [req]) (bottomQ rwc) (rcvrSet rwc)
    (flushing rwc) (conn rwc).

Definition topBottom (rwc : reconWithClient) : option bottomEntry :=
  match bottomQ rwc with
  | [] => None
  | b :: _ => Some b
  end.

Definition popBottom (rwc : reconWithClient)
  : option bottomEntry * reconWithClient :=
  match bottomQ rwc with
  | [] => (None, rwc)
  | result :: rest =>
      (Some result,
       mkReconWithClient (requestQ rwc) rest (rcvrSet rwc) (flushing rwc)
         (conn rwc))
  end.

Definition popRequest (rwc : reconWithClient)
  : option requestEntry * reconWithClient :=
  match requestQ rwc with
  | [] => (None, rwc)
  | result :: rest =>
      (Some result,
       mkReconWithClient rest (bottomQ rwc) (rcvrSet rwc) (flushing rwc)
         (conn rwc))
  end.

Definition isDone (rwc : reconWithClient) : bool :=
  bool_decide (length (requestQ rwc) = 0%nat)
  && bool_decide (length (bottomQ rwc) = 0%nat).

(** Reading a field through a pointer that may be nil. *)
Definition deref {A} (ptr : option A) : result A :=
  match ptr with
  | Some a => Ok a
  | None => Panic NilDereference
  end.

(** The message [sendRequest] builds for a request. *)
Definition requestMsg (p : Peer) (req : requestEntry) : ReconMsg :=
  if PrefixNode.IsLeaf (node req)
     || bool_decide (PrefixNode.Size (node req) < MBar p)
  then ReconRqstFull (key req) (NewZSet (PrefixNode.Elements (node req)))
  else ReconRqstPoly (key req) (PrefixNode.Size (node req))
         (PrefixNode.SValues (node req)).

(** [sendRequest]: the error of [WriteMsg] is dropped. *)
Definition sendRequest (p : Peer) (rwc : reconWithClient)
    (req : option requestEntry) : result reconWithClient :=
  r ←! deref req;
  let msg := requestMsg p r in
  let '(c, _) := WriteMsg (conn rwc) msg in
  Ok (pushBottom (set_conn c rwc) (mkBottomEntry (Some r) reconStateBottom)).

(** [&requestEntry{key: childNode.Key(), node: childNode}] *)
Definition childRequest (childNode : PrefixNode.t) : requestEntry :=
  mkRequestEntry childNode (PrefixNode.Key childNode).

(** [handleReply]: [msg] is [None] for the nil message of a closed channel;
    the type switch sends it, like every tag not listed, to [default]. *)
Definition handleReply (p : Peer) (rwc : reconWithClient)
    (msg : option ReconMsg) (req : option requestEntry)
  : result (reconWithClient * option error) :=
  match msg with
  | Some SyncFail =>
      r ←! deref req;
      if PrefixNode.IsLeaf (node r) then Ok (rwc, Some SyncfailAtLeaf)
      else
        Ok (foldl
              (λ acc childNode, pushRequest acc (childRequest childNode))
              rwc (PrefixNode.Children (node r)),
            None)
  | Some (Elements zs) =>
      Ok (set_rcvrSet (AddAll (rcvrSet rwc) zs) rwc, None)
  | Some (FullElements zs) =>
      r ←! deref req;
      let local := NewZSet (PrefixNode.Elements (node r)) in
      let localdiff := ZSetDiff local zs in
      let remotediff := ZSetDiff zs local in
      let elementsMsg := Elements localdiff in
      let '(c, _) := WriteMsg (conn rwc) elementsMsg in
      let rwc' := set_conn c rwc in
      Ok (set_rcvrSet (AddAll (rcvrSet rwc') remotediff) rwc', None)
  | m => Ok (rwc, Some (UnexpectedMessage m))
  end.

Definition flushQueue (rwc : reconWithClient) : reconWithClient :=
  set_flushing true (pushBottom rwc (mkBottomEntry None reconStateFlushEnded)).

(** One pass through the body of the [for !recon.isDone()] loop of
    [interactWithClient], up to the [if err != nil] test.  [ready] is the
    outcome of the timing of the non-blocking receive. *)
Definition loopBody (p : Peer) (ready : bool) (recon : reconWithClient)
  : result (reconWithClient * option error) :=
  match topBottom recon with
  | None =>
      let '(req, recon) := popRequest recon in
      recon ←! sendRequest p recon req;
      Ok (recon, None)
  | Some bottom =>
      match state bottom with
      | reconStateFlushEnded =>
          let '(_, recon) := popBottom recon in
          Ok (set_flushing false recon, None)
      | reconStateBottom =>
          let '(hasMsg, msg, c) := tryRecv ready (conn recon) in
          let recon := set_conn c recon in
          if hasMsg then
            let '(_, recon) := popBottom recon in
            handleReply p recon msg (bottom_requestEntry bottom)
          else if bool_decide (Z.of_nat (length (bottomQ recon))
                               > MaxOutstandingReconRequests p)
                  || bool_decide (length (requestQ recon) = 0%nat)
          then
            if negb (flushing recon) then Ok (flushQueue recon, None)
            else
              let '(_, recon) := popBottom recon in
              let '(msg, c) := recv (conn recon) in
              handleReply p (set_conn c recon) msg (bottom_requestEntry bottom)
          else
            let '(req, recon) := popRequest recon in
            recon ←! sendRequest p recon req;
            Ok (recon, None)
      end
  end.

(** The test that closes the window of the pipeline: too many entries in
    the bottom queue, or nothing left to send. *)
Definition windowClosed (p : Peer) (recon : reconWithClient) : bool :=
  bool_decide (Z.of_nat (length (bottomQ recon))
               > MaxOutstandingReconRequests p)
  || bool_decide (length (requestQ recon) = 0%nat).

(** How the loop ends.  [sched] lists the timing outcomes of the
    successive passes; a schedule that runs out before the loop ends leaves
    the session [LoopPending]. *)
Inductive loopEnd :=
  | LoopDone (recon : reconWithClient)
  | LoopErr (recon : reconWithClient) (err : error)
  | LoopPanic (e : panic)
  | LoopPending (recon : reconWithClient).

Fixpoint sessionLoop (p : Peer) (sched : list bool) (recon : reconWithClient)
  : loopEnd :=
  if isDone recon then LoopDone recon
  else
    match sched with
    | [] => LoopPending recon
    | ready :: sched' =>
        match loopBody p ready recon with
        | Panic e => LoopPanic e
        | Ok (recon', Some err) => LoopErr recon' err
        | Ok (recon', None) => sessionLoop p sched' recon'
        end
    end.

(** What a call of [interactWithClient] leaves behind: the connection, the
    events sent on [RecoverChan], and the error returned. *)
Inductive outcome :=
  | Returned (c : Conn) (recovered : list Recover) (err : option error)
  | Panicked (e : panic)
  | Pending.

(** The session as [interactWithClient] sets it up. *)
Definition startSession (c : Conn) (root : PrefixNode.t)
    (bitstring : Bitstring) : reconWithClient :=
  pushRequest (mkReconWithClient [] [] (NewZSet []) false c)
    (mkRequestEntry root bitstring).

Definition interactWithClient (p : Peer) (c : Conn)
    (remoteConfig : gmap string string) (bitstring : Bitstring)
    (sched : list bool) : outcome :=
  match Root p with
  | inl err => Returned c [] (Some err)
  | inr root =>
      match sessionLoop p sched (startSession c root bitstring) with
      | LoopPanic e => Panicked e
      | LoopPending _ => Pending
      | LoopErr recon err => Returned (conn recon) [] (Some err)
      | LoopDone recon =>
          let '(c', _) := WriteMsg (conn recon) Done in
          let items := Items (rcvrSet recon) in
          Returned c'
            (if bool_decide (0 < length items)%nat
             then [mkRecover (connRemoteAddr c') ∅ items]
             else [])
            None
      end
  end.

(** The states at the head of the loop of a session started in [s0]. *)
Inductive reachable (p : Peer) (s0 : reconWithClient)
  : reconWithClient → Prop :=
  | reachable_start : reachable p s0 s0
  | reachable_pass s ready s' :
      reachable p s0 s →
      isDone s = false →
      loopBody p ready s = Ok (s', None) →
      reachable p s0 s'.

(** Every entry of the bottom queue that awaits a reply carries its
    request. *)
Definition wellFormed (recon : reconWithClient) : Prop :=
  Forall (λ b, state b = reconStateBottom → is_Some (bottom_requestEntry b))
    (bottomQ recon).

(** The passes of the loop, by what they do to the session: a request goes
    out, the barrier is crossed, a reply is handled, or the barrier is
    pushed. *)
Inductive pass (p : Peer) (s : reconWithClient)
  : reconWithClient → option error → Prop :=
  | pass_send req rq :
      requestQ s = req :: rq →
      bottomQ s = []
      ∨ Z.of_nat (length (bottomQ s)) ≤ MaxOutstandingReconRequests p →
      pass p s
        (mkReconWithClient rq
           (bottomQ s ++ [mkBottomEntry (Some req) reconStateBottom])
           (rcvrSet s) (flushing s)
           (WriteMsg (conn s) (requestMsg p req)).1)
        None
  | pass_barrier b bq :
      bottomQ s = b :: bq →
      state b = reconStateFlushEnded →
      pass p s
        (mkReconWithClient (requestQ s) bq (rcvrSet s) false (conn s)) None
  | pass_reply b bq req s' e :
      bottomQ s = b :: bq →
      state b = reconStateBottom →
      bottom_requestEntry b = Some req →
      handleReply p
        (mkReconWithClient (requestQ s) bq (rcvrSet s) (flushing s)
           (recv (conn s)).2)
        (recv (conn s)).1 (Some req) = Ok (s', e) →
      pass p s s' e
  | pass_flush b bq :
      bottomQ s = b :: bq →
      state b = reconStateBottom →
      flushing s = false →
      windowClosed p s = true →
      pass p s (flushQueue s) None.

(** The in-flight requests: the entries of the bottom queue that await a
    reply. *)
Definition isBottom (b : bottomEntry) : bool :=
  bool_decide (state b = reconStateBottom).

Definition inFlight (recon : reconWithClient) : nat :=
  length (filter (λ b, isBottom b = true) (bottomQ recon)).

Definition barriers (recon : reconWithClient) : nat :=
  length (filter (λ b, isBottom b = false) (bottomQ recon)).

(** The messages the connection took, in order. *)
Definition sent (c : Conn) : list ReconMsg := (wlog c).*1.

(** A barrier is in the bottom queue only while the session is flushing,
    and then only one. *)
Definition oneBarrier (recon : reconWithClient) : Prop :=
  (barriers recon ≤ if flushing recon then 1 else 0)%nat.

(** The number of nodes of a subtree. *)
Fixpoint nodes (n : PrefixNode.t) : nat :=
  S (sum_list_with nodes (PrefixNode.Children n)).

(** A bound on the passes a session still has before it: a request is yet
    to be sent and answered, and so is each node under it; an in-flight
    entry is yet to be answered; the barrier is yet to be pushed, reached
    and crossed. *)
Definition requestWeight (req : requestEntry) : nat := 4 * nodes (node req).

Definition bottomWeight (b : bottomEntry) : nat :=
  match state b, bottom_requestEntry b with
  | reconStateBottom, Some req => 4 * nodes (node req) - 1
  | _, _ => 0
  end.

Definition flushWeight (recon : reconWithClient) : nat :=
  if flushing recon then
    match bottomQ recon with
    | b :: _ => if isBottom b then 1 else 3
    | [] => 3
    end
  else 2.

Definition passesLeft (recon : reconWithClient) : nat :=
  sum_list_with requestWeight (requestQ recon)
  + sum_list_with bottomWeight (bottomQ recon)
  + flushWeight recon.


(** The session after the passes timed by [sched], none of which ends the
    loop or fails. *)
Fixpoint passes (p : Peer) (sched : list bool) (recon : reconWithClient)
  : option reconWithClient :=
  match sched with
  | [] => Some recon
  | ready :: sched' =>
      if isDone recon then None
      else
        match loopBody p ready recon with
        | Ok (recon', None) => passes p sched' recon'
        | _ => None
        end
  end.

(** The bound on the pipeline read as: as long as no barrier is pending,
    at most [MaxOutstandingReconRequests] requests are in flight. *)
Definition windowRespected (p : Peer) (s0 : reconWithClient) : Prop :=
  ∀ s, reachable p s0 s → flushing s = false →
       Z.of_nat (inFlight s) ≤ MaxOutstandingReconRequests p.

End Recon.

(** ** Sessions to run *)

Module Scenario.
Import Field Recon.

Definition leaf (k : Bitstring) (elements : list Zp) : PrefixNode.t :=
  PrefixNode.mk true (Z.of_nat (length elements)) elements [] [] k.

(** A root with two leaves under it, and a peer that allows one
    outstanding request. *)
Definition twoLeafRoot : PrefixNode.t :=
  PrefixNode.mk false 2 [] [mkZp 5 3]
    [leaf [false] [mkZp 5 2]; leaf [true] [mkZp 5 1]] [].

Definition twoLeafPeer : Peer := mkPeer 1 1 (inr twoLeafRoot).

Definition twoLeafStart : reconWithClient :=
  startSession (mkConn "remote" [SyncFail] [] []) twoLeafRoot [].

(** The root request is answered by [SyncFail]; both children are then
    sent without waiting. *)
Definition twoLeafPipelined : option reconWithClient :=
  passes twoLeafPeer [true; true; true; false] twoLeafStart.

(** A root that is a leaf holding 1 and 2 of Z(5), against a remote that
    holds 2 and 3. *)
Definition leafRoot : PrefixNode.t := leaf [] [mkZp 5 1; mkZp 5 2].

Definition leafPeer : Peer := mkPeer 1 1 (inr leafRoot).

Definition remoteSet : gset Zp := NewZSet [mkZp 5 2; mkZp 5 3].

Definition leafConn : Conn := mkConn "remote" [FullElements remoteSet] [] [].

(** The same connection, on which the first [WriteMsg] fails. *)
Definition brokenConn : Conn :=
  mkConn "remote" [FullElements remoteSet] [true] [].

(** The root request of [leafRoot] in flight, and the remote answering
    [SyncFail]. *)
Definition leafRequest : requestEntry := mkRequestEntry leafRoot [].

Definition leafAwaiting : reconWithClient :=
  mkReconWithClient [] [mkBottomEntry (Some leafRequest) reconStateBottom]
    (NewZSet []) false (mkConn "remote" [SyncFail] [] []).

(** The remote hangs up without answering. *)
Definition silentConn : Conn := mkConn "remote" [] [] [].

Definition leafAnswered : reconWithClient :=
  mkReconWithClient [] [] (NewZSet []) false (mkConn "remote" [] [] []).

End Scenario.

(** ** The named moduli *)

Module Moduli.

(** [big.Int.SetBytes]: the bytes read as a big-endian unsigned integer. *)
Definition SetBytes (buf : list Z) : Z :=
  foldl (λ acc b, acc * 256 + b) 0 buf.

Definition p_128_bytes : list Z :=
  [0x91; 0xae; 0x33; 0x7c; 0x8a; 0x19; 0xf5; 0xb7;
   0xc3; 0xca; 0xab; 0x7f; 0xf9; 0xf0; 0x6d; 0x95].

Definition p_160_bytes : list Z :=
  [0x81; 0xce; 0x83; 0x36; 0x6d; 0xb4; 0xff; 0xb5;
   0xb; 0xc9; 0x3; 0xf7; 0x5c; 0xd8; 0xfd; 0x35;
   0xd; 0xab; 0xa4; 0xc3].

Definition p_256_bytes : list Z :=
  [0x8c; 0x1d; 0x8b; 0xc4; 0xf6; 0x99; 0xd5; 0xc1;
   0x70; 0xc0; 0xe1; 0xfb; 0x53; 0xc; 0xb2; 0x6c;
   0x77; 0x72; 0x81; 0x17; 0xa; 0x99; 0x2b; 0x72;
   0x4d; 0x59; 0xc6; 0x59; 0xa; 0x9a; 0x54; 0xcb].

Definition p_512_bytes : list Z :=
  [0xae; 0x3f; 0x54; 0x4f; 0xa6; 0x5c; 0xb4; 0xa7;
   0x8a; 0x45; 0x6d; 0x24; 0xe7; 0x45; 0xc9; 0xb2;
   0x15; 0x94; 0x3d; 0xd3; 0xaf; 0x31; 0xa0; 0xa8;
   0xe4; 0xdb; 0xba; 0x59; 0x71; 0x44; 0xdc; 0x9f;
   0x35; 0x67; 0x88; 0xa6; 0x35; 0xa2; 0x4e; 0xfa;
   0xcd; 0x55; 0x54; 0x6; 0xfa; 0x20; 0xbe; 0xe0;
   0x5e; 0x35; 0x19; 0xb8; 0x49; 0x21; 0x1; 0x78;
   0x9a; 0x25; 0x50; 0x5; 0xa2; 0x56; 0x82; 0x1d].

Definition p_128 : Z := SetBytes p_128_bytes.
Definition p_160 : Z := SetBytes p_160_bytes.
Definition p_256 : Z := SetBytes p_256_bytes.
Definition p_512 : Z := SetBytes p_512_bytes.

(** The arguments [NewZp] can take: [int64]. *)
Definition int64 (n : Z) : Prop := - 2 ^ 63 ≤ n < 2 ^ 63.

(** The sum of the values of some operands. *)
Definition sumZ (values : list Field.Zp) : Z :=
  foldr (λ v acc, Field.zpZ v + acc) 0 values.

End Moduli.

(** ** What a session shows of itself *)

Module Trace.
Import Field Recon.

Definition isRequest (msg : ReconMsg) : bool :=
  match msg with
  | ReconRqstFull _ _ | ReconRqstPoly _ _ _ => true
  | _ => false
  end.

(** The requests among the messages written on a connection, in order. *)
Definition requestsWritten (c : Conn) : list ReconMsg :=
  filter (λ msg, isRequest msg = true) (sent c).

(** The requests in flight, oldest first. *)
Definition awaited (recon : reconWithClient) : list requestEntry :=
  omap (λ b, if isBottom b then bottom_requestEntry b else None)
    (bottomQ recon).

(** The nodes of the tree under [root], [root] included. *)
Inductive inTree (root : PrefixNode.t) : PrefixNode.t → Prop :=
  | inTree_root : inTree root root
  | inTree_child n child :
      inTree root n → child ∈ PrefixNode.Children n → inTree root child.

(** The elements a message carries. *)
Definition carried (msg : ReconMsg) : gset Zp :=
  match msg with
  | ReconRqstFull _ zs | Elements zs | FullElements zs => zs
  | _ => ∅
  end.

(** The elements a reply offers to the session. *)
Definition offered (msg : ReconMsg) : gset Zp :=
  match msg with
  | Elements zs | FullElements zs => zs
  | _ => ∅
  end.

(** A request of the session on the tree under [root]: the root under the
    key the session was given, or a node below under its own key. *)
Definition ofTree (root : PrefixNode.t) (bitstring : Bitstring)
    (req : requestEntry) : Prop :=
  inTree root (node req)
  ∧ (req = mkRequestEntry root bitstring
     ∨ key req = PrefixNode.Key (node req)).

(** The replies [handleReply] accepts for a request. *)
Definition accepted (msg : option ReconMsg) (req : requestEntry) : bool :=
  match msg with
  | Some SyncFail => negb (PrefixNode.IsLeaf (node req))
  | Some (Elements _) | Some (FullElements _) => true
  | _ => false
  end.

(** The requests written are those answered so far, one per reply
    consumed, and then those in flight. *)
Definition inOrder (p : Peer) (c0 : Conn) (s : reconWithClient) : Prop :=
  ∃ answered consumed,
    inbound c0 = consumed ++ inbound (conn s)
    ∧ requestsWritten (conn s)
      = requestsWritten c0 ++ answered ++ map (requestMsg p) (awaited s)
    ∧ length answered = length consumed.

(** A message of the session about the tree under [root]: the request for
    one of its nodes, or the elements of one of its nodes that a reply
    lacked. *)
Definition fromTree (p : Peer) (root : PrefixNode.t) (bitstring : Bitstring)
    (msg : ReconMsg) : Prop :=
  ∃ req,
    ofTree root bitstring req
    ∧ (msg = requestMsg p req
       ∨ ∃ zs, msg = Elements
                       (ZSetDiff (NewZSet (PrefixNode.Elements (node req)))
                          zs)).

(** The session keeps to the tree: its requests, queued or in flight, and
    what it has written since it started on connection [c0]. *)
Definition confined (p : Peer) (root : PrefixNode.t) (bitstring : Bitstring)
    (c0 : Conn) (s : reconWithClient) : Prop :=
  Forall (ofTree root bitstring) (requestQ s)
  ∧ Forall (ofTree root bitstring) (awaited s)
  ∧ ∃ written,
      sent (conn s) = sent c0 ++ written
      ∧ Forall (fromTree p root bitstring) written.

(** What the session has recovered was offered by a reply it consumed. *)
Definition sound (c0 : Conn) (s : reconWithClient) : Prop :=
  ∃ consumed,
    inbound c0 = consumed ++ inbound (conn s)
    ∧ ∀ x, x ∈ rcvrSet s → ∃ msg, msg ∈ consumed ∧ x ∈ offered msg.

(** The connection had no write failed: the same messages logged, all as
    delivered. *)
Definition eraseConn (c : Conn) : Conn :=
  mkConn (connRemoteAddr c) (inbound c) [] ((λ w, (w.1, true)) <$> wlog c).

Definition erase (s : reconWithClient) : reconWithClient :=
  set_conn (eraseConn (conn s)) s.

End Trace.

(** ** The handshake *)

Module Handshake.
Import Field Recon.

(** Modelled from the spec: [ReadMsg(conn) (ReconMsg, error)] of the message
    transport, on the connection itself. *)
Definition ReadMsg (c : Conn) : option ReconMsg * option error * Conn :=
  match inbound c with
  | [] => (None, Some TransportError, c)
  | msg :: rest =>
      (Some msg, None, mkConn (connRemoteAddr c) rest (wfail c) (wlog c))
  end.

(** The errors of [accept]: its own, or the one of the session. *)
Inductive acceptError :=
  | ExpectedRemoteConfig
  | Failed (err : error).

(** What a call of [accept] leaves behind; [closed] is the deferred
    [conn.Close()]. *)
Inductive acceptEnd :=
  | Accepted (c : Conn) (closed : bool) (recovered : list Recover)
      (err : option acceptError)
  | AcceptPanicked (closed : bool) (e : panic)
  | AcceptPending.

(** [ExecCmd]: the command goes to the worker of [handleCmds], which runs
    it and hands its result back. *)
Definition ExecCmd (cmd : outcome) : outcome := cmd.

(** [accept]; [localConfig] is [p.Config()], and the schedule times the
    session. *)
Definition accept (p : Peer) (localConfig : gmap string string) (c : Conn)
    (sched : list bool) : acceptEnd :=
  let '(msg, err, c) := ReadMsg c in
  match err with
  | Some e => Accepted c true [] (Some (Failed e))
  | None =>
      match msg with
      | Some (Config remoteConfig) =>
          let '(c, err) := WriteMsg c (Config localConfig) in
          match err with
          | Some e => Accepted c true [] (Some (Failed e))
          | None =>
              match ExecCmd (interactWithClient p c remoteConfig [] sched) with
              | Returned c' recovered err =>
                  Accepted c' true recovered (Failed <$> err)
              | Panicked e => AcceptPanicked true e
              | Pending => AcceptPending
              end
          end
      | _ => Accepted c true [] (Some ExpectedRemoteConfig)
      end
  end.

End Handshake.

(** * Facts *)

Import Field Recon Scenario.

(** ** Field arithmetic *)

Section FieldFacts.

Lemma big_Mod_pos (x y : Z) : 0 < y → big_Mod x y = Ok (x `mod` y).
Proof.
  intros Hy. unfold big_Mod. rewrite decide_False by lia.
  by rewrite Z.abs_eq by lia.
Qed.

Lemma big_Mod_range (x y r : Z) : big_Mod x y = Ok r → 0 ≤ r < Z.abs y.
Proof.
  unfold big_Mod. case_decide; [done|]. intros [= <-].
  apply Z.mod_pos_bound. lia.
Qed.

Lemma normalize_Ok (zp : Zp) :
  zpP zp ≠ 0 → normalize zp = Ok (mkZp (zpP zp) (zpZ zp `mod` Z.abs (zpP zp))).
Proof. intros Hp. unfold normalize, big_Mod. by rewrite decide_False. Qed.

Lemma normalize_zero (zp : Zp) : zpP zp = 0 → normalize zp = Panic DivisionByZero.
Proof. intros Hp. unfold normalize, big_Mod. by rewrite decide_True. Qed.

Lemma Add_cons_same (zp v : Zp) (rest : list Zp) :
  zpP zp = zpP v →
  Add zp (v :: rest) =
    zp' ←! normalize (mkZp (zpP zp) (zpZ zp + zpZ v)); Add zp' rest.
Proof. intros Hp. simpl. unfold assertZp. by rewrite decide_True. Qed.

Lemma Add_cons_mismatch (zp v : Zp) (rest : list Zp) :
  zpP zp ≠ zpP v → Add zp (v :: rest) = Panic (FieldMismatch (zpP zp) (zpP v)).
Proof. intros Hp. simpl. unfold assertZp. by rewrite decide_False. Qed.

Lemma Add_keeps_modulus (values : list Zp) :
  ∀ zp r, Add zp values = Ok r → zpP r = zpP zp.
Proof.
  induction values as [|v rest IH]; intros zp r; simpl.
  - by intros [= <-].
  - unfold assertZp. case_decide; [|done]. simpl.
    unfold normalize, big_Mod; simpl. case_decide; [done|]. simpl.
    intros Hr. by rewrite (IH _ _ Hr).
Qed.

Lemma Add_zero_modulus (zp v : Zp) (rest : list Zp) :
  zpP zp = 0 → panics (Add zp (v :: rest)).
Proof.
  intros Hp. simpl. unfold assertZp. case_decide; [|by eexists].
  simpl. rewrite normalize_zero by done. by eexists.
Qed.

(** *** The method on the store

    With one operand the store version is the value version, aliased or
    not, since the operand is read before the receiver is written; with
    several it is as long as the receiver is not among them. *)

Lemma Add_at_single (h : gmap nat Zp) (a b : nat) (x y : Zp) :
  h !! a = Some x → h !! b = Some y →
  Add_at h a [b] = (r ←! Add x [y]; Ok (<[a := r]> h)).
Proof.
  intros Ha Hb. simpl. rewrite Ha, Hb.
  destruct (assertZp x y); [|done]. simpl.
  by destruct (normalize _).
Qed.

Lemma lookups_insert_fresh (h : gmap nat Zp) (zp : nat) (x : Zp)
    (values : list nat) (ys : list Zp) :
  zp ∉ values →
  Forall2 (λ v y, h !! v = Some y) values ys →
  Forall2 (λ v y, <[zp := x]> h !! v = Some y) values ys.
Proof.
  intros Hfresh Hall. induction Hall as [|v y rest ys' Hv Hall IH].
  - constructor.
  - apply not_elem_of_cons in Hfresh as [Hne Hfresh].
    constructor; [|by apply IH]. by rewrite lookup_insert_ne.
Qed.

Lemma Add_at_fresh (values : list nat) :
  ∀ (h : gmap nat Zp) (zp : nat) (x : Zp) (ys : list Zp),
    h !! zp = Some x → zp ∉ values →
    Forall2 (λ v y, h !! v = Some y) values ys →
    Add_at h zp values = (r ←! Add x ys; Ok (<[zp := r]> h)).
Proof.
  induction values as [|v rest IH]; intros h zp x ys Hzp Hfresh Hall.
  - apply Forall2_nil_inv_l in Hall as ->. simpl. by rewrite insert_id.
  - apply Forall2_cons_inv_l in Hall as (y & ys' & Hv & Hall & ->).
    apply not_elem_of_cons in Hfresh as [Hne Hfresh].
    simpl. rewrite Hzp, Hv.
    destruct (assertZp x y); [|done]. simpl.
    destruct (normalize _) as [x'|e]; [|done]. simpl.
    rewrite (IH (<[zp := x']> h) zp x' ys').
    + destruct (Add x' ys'); [|done]. simpl. by rewrite insert_insert_eq.
    + apply lookup_insert_eq.
    + done.
    + by apply lookups_insert_fresh.
Qed.

(** Doubling in place: [a.Add(a)]. *)
Lemma Add_at_self (h : gmap nat Zp) (a : nat) (x : Zp) :
  h !! a = Some x → zpP x ≠ 0 →
  Add_at h a [a] =
    Ok (<[a := mkZp (zpP x) ((zpZ x + zpZ x) `mod` Z.abs (zpP x))]> h).
Proof.
  intros Ha Hp. rewrite (Add_at_single h a a x x Ha Ha).
  rewrite Add_cons_same by done. by rewrite normalize_Ok.
Qed.

(** An operand of another modulus, or a nil one, makes the store version
    panic as well. *)
Lemma Add_at_panics_on_mismatch (values : list nat) :
  ∀ (h : gmap nat Zp) (zp v : nat) (x : Zp),
    h !! zp = Some x → v ∈ values →
    (∀ y, h !! v = Some y → zpP y ≠ zpP x) →
    panics (Add_at h zp values).
Proof.
  induction values as [|v0 rest IH]; intros h zp v x Hzp Hin Hne.
  - by apply elem_of_nil in Hin.
  - simpl. rewrite Hzp.
    destruct (h !! v0) as [y0|] eqn:Hv0; [|by eexists].
    unfold assertZp. case_decide as Hsame; [|by eexists]. simpl.
    destruct (normalize _) as [x'|e] eqn:Hnorm; [|by eexists]. simpl.
    assert (HP : zpP x' = zpP x).
    { unfold normalize in Hnorm. simpl in Hnorm.
      destruct (big_Mod _ _); [|done]. by injection Hnorm as <-. }
    apply elem_of_cons in Hin as [->|Hin].
    { exfalso. by apply (Hne y0). }
    apply (IH _ zp v x'); [apply lookup_insert_eq | done |].
    intros y Hy. rewrite HP.
    destruct (decide (zp = v)) as [->|Hzv].
    + rewrite lookup_insert_eq in Hy. injection Hy as <-.
      exfalso. by apply (Hne x).
    + rewrite lookup_insert_ne in Hy by done. by apply Hne.
Qed.

End FieldFacts.

(** Claim C7.  For every [p > 0] and every [n], [NewZp p n] returns (it does
    not panic) an element of modulus [p] whose value is [n mod p], hence in
    [0, p): a negative [n] wraps around.  [NewZp 65537 (-1)] has value
    65536. *)
Theorem NewZp_in_range (p n : Z) (Hp : 0 < p) :
  (∃ zp, NewZp p n = Ok zp ∧ zpP zp = p ∧ zpZ zp = n `mod` p ∧ 0 ≤ zpZ zp < p)
  ∧ NewZp 65537 (-1) = Ok (mkZp 65537 65536).
Proof.
  split; [|reflexivity].
  exists (mkZp p (n `mod` p)). unfold NewZp, normalize. simpl.
  rewrite big_Mod_pos by done. simpl.
  repeat split; try done; apply Z.mod_pos_bound; lia.
Qed.

Lemma NewZp_in_range_witness :
  0 < 65537 ∧
  ((∃ zp, NewZp 65537 (-1) = Ok zp ∧ zpP zp = 65537
          ∧ zpZ zp = (-1) `mod` 65537 ∧ 0 ≤ zpZ zp < 65537)
   ∧ NewZp 65537 (-1) = Ok (mkZp 65537 65536)).
Proof. split; [lia | apply (NewZp_in_range 65537 (-1)); lia]. Defined.

(** Claim C8.  If some operand of [Add] has a modulus other than the
    receiver's, the call panics and returns no value; with that operand
    alone the panic is the field mismatch of [assertZp]. *)
Theorem Add_mismatch_panics (zp : Zp) (values : list Zp) (v : Zp)
    (Hin : v ∈ values) (Hne : zpP v ≠ zpP zp) :
  panics (Add zp values) ∧ (∀ r, Add zp values ≠ Ok r)
  ∧ Add zp [v] = Panic (FieldMismatch (zpP zp) (zpP v)).
Proof.
  assert (Hp : panics (Add zp values)).
  { revert zp Hne. induction values as [|v0 rest IH]; intros zp Hne.
    - by apply elem_of_nil in Hin.
    - destruct (decide (zpP zp = zpP v0)) as [Heq|Hneq].
      + destruct (decide (zpP zp = 0)) as [Hz|Hnz].
        { by apply Add_zero_modulus. }
        rewrite Add_cons_same by done.
        rewrite normalize_Ok by done. simpl.
        apply elem_of_cons in Hin as [->|Hin]; [congruence|].
        by apply IH.
      + rewrite Add_cons_mismatch by done. by eexists. }
  split; [done|]. split.
  - intros r Hr. destruct Hp as [e He]. congruence.
  - apply Add_cons_mismatch. congruence.
Qed.

Lemma Add_mismatch_panics_witness :
  panics (Add (mkZp 5 1) [mkZp 65537 9])
  ∧ (∀ r, Add (mkZp 5 1) [mkZp 65537 9] ≠ Ok r)
  ∧ Add (mkZp 5 1) [mkZp 65537 9] = Panic (FieldMismatch 5 65537).
Proof.
  apply (Add_mismatch_panics (mkZp 5 1) [mkZp 65537 9] (mkZp 65537 9)).
  - apply list_elem_of_singleton. reflexivity.
  - simpl. lia.
Defined.

(** Claim C9.  For elements of one modulus, [a.Add(b)] and [b.Add(a)] give
    the same element, adding [c] to [a + b] gives the same as adding [b + c]
    to [a], and [a.Add(b, c)] is [a.Add(b).Add(c)].  In Z(5), 1 + 3 = 4 and
    1 + 9 = 0. *)
Theorem Add_comm_assoc (a b c : Zp)
    (Hab : zpP a = zpP b) (Hbc : zpP b = zpP c) :
  Add a [b] = Add b [a]
  ∧ (ab ←! Add a [b]; Add ab [c]) = (bc ←! Add b [c]; Add a [bc])
  ∧ Add a [b; c] = (ab ←! Add a [b]; Add ab [c])
  ∧ (x ←! zp5 1; y ←! zp5 3; Add x [y]) = zp5 4
  ∧ (x ←! zp5 1; y ←! zp5 9; Add x [y]) = zp5 0.
Proof.
  destruct a as [p x], b as [q y], c as [r z]. simpl in Hab, Hbc. subst q r.
  repeat split; try reflexivity.
  - rewrite !Add_cons_same by done. simpl.
    unfold normalize, big_Mod. simpl. case_decide; [done|]. simpl.
    by rewrite (Z.add_comm x y).
  - rewrite !Add_cons_same by done. simpl.
    unfold normalize, big_Mod. simpl. case_decide; [done|]. simpl.
    unfold assertZp. simpl. rewrite decide_True by done. simpl.
    unfold normalize, big_Mod. simpl. rewrite !decide_False by done. simpl.
    do 2 f_equal.
    rewrite Z.add_mod_idemp_l, Z.add_mod_idemp_r by lia.
    by rewrite Z.add_assoc.
  - rewrite !Add_cons_same by done. simpl.
    unfold normalize, big_Mod. simpl. case_decide; [done|]. simpl.
    unfold assertZp. simpl. by rewrite decide_True by done.
Qed.

Lemma Add_comm_assoc_witness :
  Add (mkZp 5 1) [mkZp 5 3] = Add (mkZp 5 3) [mkZp 5 1]
  ∧ (ab ←! Add (mkZp 5 1) [mkZp 5 3]; Add ab [mkZp 5 9])
    = (bc ←! Add (mkZp 5 3) [mkZp 5 9]; Add (mkZp 5 1) [bc])
  ∧ Add (mkZp 5 1) [mkZp 5 3; mkZp 5 9]
    = (ab ←! Add (mkZp 5 1) [mkZp 5 3]; Add ab [mkZp 5 9])
  ∧ (x ←! zp5 1; y ←! zp5 3; Add x [y]) = zp5 4
  ∧ (x ←! zp5 1; y ←! zp5 9; Add x [y]) = zp5 0.
Proof.
  apply (Add_comm_assoc (mkZp 5 1) (mkZp 5 3) (mkZp 5 9)); reflexivity.
Defined.

(** ** The transport *)

Section TransportFacts.

Lemma WriteMsg_inv (c c' : Conn) (msg : ReconMsg) (e : option error) :
  WriteMsg c msg = (c', e) →
  wlog c' = wlog c ++ [(msg, bool_decide (e = None))]
  ∧ inbound c' = inbound c
  ∧ connRemoteAddr c' = connRemoteAddr c.
Proof.
  unfold WriteMsg. destruct (wfail c) as [|[] w]; intros [= <- <-]; done.
Qed.

Lemma WriteMsg_sent (c c' : Conn) (msg : ReconMsg) (e : option error) :
  WriteMsg c msg = (c', e) → sent c' = sent c ++ [msg].
Proof.
  intros H. apply WriteMsg_inv in H as (Hw & _ & _).
  unfold sent. by rewrite Hw, fmap_app.
Qed.

Lemma recv_inv (c c' : Conn) (msg : option ReconMsg) :
  recv c = (msg, c') →
  wlog c' = wlog c ∧ connRemoteAddr c' = connRemoteAddr c
  ∧ inbound c = from_option (λ m, m :: inbound c') [] msg.
Proof.
  unfold recv. destruct (inbound c) as [|m rest] eqn:Hin; intros [= <- <-].
  - by rewrite Hin.
  - done.
Qed.

Lemma tryRecv_inv (ready hasMsg : bool) (c c' : Conn) (msg : option ReconMsg) :
  tryRecv ready c = (hasMsg, msg, c') →
  hasMsg = ready ∧ wlog c' = wlog c
  ∧ connRemoteAddr c' = connRemoteAddr c.
Proof.
  unfold tryRecv. destruct ready.
  - destruct (recv c) as [m c1] eqn:Hr. intros [= <- <- <-].
    apply recv_inv in Hr as (? & ? & _). done.
  - intros [= <- <- <-]. done.
Qed.

End TransportFacts.

(** ** Sending a request *)

Section SendFacts.

Lemma NewZSet_elem_of (l : list Zp) (x : Zp) : x ∈ NewZSet l ↔ x ∈ l.
Proof. unfold NewZSet. apply elem_of_list_to_set. Qed.

Lemma ZSetDiff_elem_of (a b : gset Zp) (x : Zp) :
  x ∈ ZSetDiff a b ↔ x ∈ a ∧ x ∉ b.
Proof. unfold ZSetDiff. apply elem_of_difference. Qed.

Lemma AddAll_elem_of (a b : gset Zp) (x : Zp) :
  x ∈ AddAll a b ↔ x ∈ a ∨ x ∈ b.
Proof. unfold AddAll. apply elem_of_union. Qed.

Lemma Items_elem_of (zs : gset Zp) (x : Zp) : x ∈ Items zs ↔ x ∈ zs.
Proof. unfold Items. apply elem_of_elements. Qed.

Lemma Items_NoDup (zs : gset Zp) : NoDup (Items zs).
Proof. unfold Items. apply NoDup_elements. Qed.

Lemma requestMsg_Full (p : Peer) (req : requestEntry) :
  PrefixNode.IsLeaf (node req) = true ∨ PrefixNode.Size (node req) < MBar p →
  requestMsg p req =
    ReconRqstFull (key req) (NewZSet (PrefixNode.Elements (node req))).
Proof.
  intros H. unfold requestMsg.
  destruct (PrefixNode.IsLeaf (node req)); [done|].
  destruct H as [|H]; [done|]. by rewrite bool_decide_eq_true_2.
Qed.

Lemma requestMsg_Poly (p : Peer) (req : requestEntry) :
  PrefixNode.IsLeaf (node req) = false → MBar p ≤ PrefixNode.Size (node req) →
  requestMsg p req =
    ReconRqstPoly (key req) (PrefixNode.Size (node req))
      (PrefixNode.SValues (node req)).
Proof.
  intros Hl Hs. unfold requestMsg. rewrite Hl.
  by rewrite bool_decide_eq_false_2 by lia.
Qed.

Lemma requestMsg_not_Done (p : Peer) (req : requestEntry) :
  requestMsg p req ≠ Done.
Proof. unfold requestMsg. by case_match. Qed.

Lemma sendRequest_Some (p : Peer) (rwc : reconWithClient) (req : requestEntry) :
  sendRequest p rwc (Some req) =
    Ok (pushBottom (set_conn (WriteMsg (conn rwc) (requestMsg p req)).1 rwc)
          (mkBottomEntry (Some req) reconStateBottom)).
Proof.
  unfold sendRequest. simpl.
  by destruct (WriteMsg (conn rwc) (requestMsg p req)).
Qed.

End SendFacts.

(** Claim C5.  [sendRequest] on a request writes one message and pushes one
    in-flight entry for the request: if the node is a leaf or holds fewer
    than [MBar] elements, the message is [ReconRqstFull] with the entry's key
    and exactly the elements of the node; otherwise it is [ReconRqstPoly]
    with the key, the node's size and its sample values. *)
Theorem sendRequest_policy (p : Peer) (rwc : reconWithClient)
    (req : requestEntry) :
  ∃ msg ok c',
    sendRequest p rwc (Some req) =
      Ok (mkReconWithClient (requestQ rwc)
            (bottomQ rwc ++ [mkBottomEntry (Some req) reconStateBottom])
            (rcvrSet rwc) (flushing rwc) c')
    ∧ wlog c' = wlog (conn rwc) ++ [(msg, ok)]
    ∧ (((PrefixNode.IsLeaf (node req) = true
         ∨ PrefixNode.Size (node req) < MBar p)
        ∧ ∃ zs, msg = ReconRqstFull (key req) zs
                ∧ ∀ x, x ∈ zs ↔ x ∈ PrefixNode.Elements (node req))
       ∨ ((PrefixNode.IsLeaf (node req) = false
           ∧ MBar p ≤ PrefixNode.Size (node req))
          ∧ msg = ReconRqstPoly (key req) (PrefixNode.Size (node req))
                    (PrefixNode.SValues (node req)))).
Proof.
  rewrite sendRequest_Some.
  destruct (WriteMsg (conn rwc) (requestMsg p req)) as [c' e] eqn:HW.
  apply WriteMsg_inv in HW as (Hlog & _ & _).
  exists (requestMsg p req), (bool_decide (e = None)), c'.
  split; [done|]. split; [done|].
  destruct (PrefixNode.IsLeaf (node req)) eqn:Hleaf.
  - left. split; [by left|]. eexists. split.
    + apply requestMsg_Full. by left.
    + apply NewZSet_elem_of.
  - destruct (decide (PrefixNode.Size (node req) < MBar p)) as [Hlt|Hge].
    + left. split; [by right|]. eexists. split.
      * apply requestMsg_Full. by right.
      * apply NewZSet_elem_of.
    + right. split; [split; [done|lia]|].
      apply requestMsg_Poly; [done|lia].
Qed.

(** ** Handling a reply *)

Section ReplyFacts.

Lemma push_children (children : list PrefixNode.t) :
  ∀ rwc,
    foldl (λ acc childNode, pushRequest acc (childRequest childNode))
      rwc children
    = mkReconWithClient (requestQ rwc ++ map childRequest children)
        (bottomQ rwc) (rcvrSet rwc) (flushing rwc) (conn rwc).
Proof.
  induction children as [|ch rest IH]; intros rwc; simpl.
  - rewrite app_nil_r. by destruct rwc.
  - rewrite IH. simpl. by rewrite <- app_assoc.
Qed.

Lemma handleReply_SyncFail_internal (p : Peer) (rwc : reconWithClient)
    (req : requestEntry) :
  PrefixNode.IsLeaf (node req) = false →
  handleReply p rwc (Some SyncFail) (Some req) =
    Ok (mkReconWithClient
          (requestQ rwc ++ map childRequest (PrefixNode.Children (node req)))
          (bottomQ rwc) (rcvrSet rwc) (flushing rwc) (conn rwc), None).
Proof.
  intros Hl. unfold handleReply. simpl. rewrite Hl.
  by rewrite <- push_children.
Qed.

Lemma handleReply_SyncFail_leaf (p : Peer) (rwc : reconWithClient)
    (req : requestEntry) :
  PrefixNode.IsLeaf (node req) = true →
  handleReply p rwc (Some SyncFail) (Some req) = Ok (rwc, Some SyncfailAtLeaf).
Proof. intros Hl. unfold handleReply. simpl. by rewrite Hl. Qed.

Lemma handleReply_FullElements (p : Peer) (rwc : reconWithClient)
    (req : requestEntry) (zs : gset Zp) :
  let local := NewZSet (PrefixNode.Elements (node req)) in
  handleReply p rwc (Some (FullElements zs)) (Some req) =
    Ok (mkReconWithClient (requestQ rwc) (bottomQ rwc)
          (AddAll (rcvrSet rwc) (ZSetDiff zs local)) (flushing rwc)
          (WriteMsg (conn rwc) (Elements (ZSetDiff local zs))).1, None).
Proof.
  simpl. unfold handleReply. simpl.
  by destruct (WriteMsg (conn rwc) _).
Qed.

Lemma handleReply_nil (p : Peer) (rwc : reconWithClient)
    (req : option requestEntry) :
  handleReply p rwc None req = Ok (rwc, Some (UnexpectedMessage None)).
Proof. reflexivity. Qed.

(** Whatever the reply, [handleReply] writes at most an [Elements]
    message, and panics only on a nil request. *)
Lemma handleReply_inv (p : Peer) (rwc rwc' : reconWithClient)
    (msg : option ReconMsg) (req : requestEntry) (e : option error) :
  handleReply p rwc msg (Some req) = Ok (rwc', e) →
  bottomQ rwc' = bottomQ rwc ∧ flushing rwc' = flushing rwc
  ∧ (sent (conn rwc') = sent (conn rwc)
     ∨ ∃ zs, sent (conn rwc') = sent (conn rwc) ++ [Elements zs])
  ∧ (e ≠ None → requestQ rwc' = requestQ rwc ∧ rcvrSet rwc' = rcvrSet rwc
               ∧ conn rwc' = conn rwc).
Proof.
  destruct msg as [[]|].
  all: try (intros [= <- <-]; split_and!; [done|done|by left|done]).
  - rewrite handleReply_FullElements. intros [= <- <-]. simpl.
    destruct (WriteMsg (conn rwc) _) as [c' e'] eqn:HW.
    apply WriteMsg_sent in HW. simpl.
    split_and!; [done|done| right; by eexists |done].
  - destruct (PrefixNode.IsLeaf (node req)) eqn:Hl.
    + rewrite handleReply_SyncFail_leaf by done. intros [= <- <-].
      split_and!; [done|done|by left|done].
    + rewrite handleReply_SyncFail_internal by done. intros [= <- <-].
      simpl. split_and!; [done|done|by left|done].
Qed.

Lemma handleReply_no_panic (p : Peer) (rwc : reconWithClient)
    (msg : option ReconMsg) (req : requestEntry) :
  ∃ rwc' e, handleReply p rwc msg (Some req) = Ok (rwc', e).
Proof.
  destruct msg as [[]|]; try (by do 2 eexists).
  - rewrite handleReply_FullElements. by do 2 eexists.
  - unfold handleReply. simpl. case_match; by do 2 eexists.
Qed.

End ReplyFacts.

(** ** One pass of the loop *)

Section PassFacts.

Context (p : Peer).

Lemma isDone_false (recon : reconWithClient) :
  isDone recon = false ↔ requestQ recon ≠ [] ∨ bottomQ recon ≠ [].
Proof.
  unfold isDone. destruct (requestQ recon), (bottomQ recon); simpl.
  - split; [done | by intros [|]].
  - split; [by right | done].
  - split; [by left | done].
  - split; [by left | done].
Qed.

Lemma isDone_true (recon : reconWithClient) :
  isDone recon = true ↔ requestQ recon = [] ∧ bottomQ recon = [].
Proof.
  unfold isDone. destruct (requestQ recon), (bottomQ recon); simpl.
  - done.
  - split; [done | by intros []].
  - split; [done | by intros []].
  - split; [done | by intros []].
Qed.

(** [case bottom == nil] *)
Lemma loopBody_idle (ready : bool) (recon : reconWithClient) :
  bottomQ recon = [] →
  loopBody p ready recon =
    (recon' ←! sendRequest p (popRequest recon).2 (popRequest recon).1;
     Ok (recon', None)).
Proof.
  intros Hb. unfold loopBody, topBottom. rewrite Hb.
  by destruct (popRequest recon).
Qed.

(** [case bottom.state == reconStateFlushEnded] *)
Lemma loopBody_barrier (ready : bool) (recon : reconWithClient)
    (b : bottomEntry) (bq : list bottomEntry) :
  bottomQ recon = b :: bq → state b = reconStateFlushEnded →
  loopBody p ready recon =
    Ok (mkReconWithClient (requestQ recon) bq (rcvrSet recon) false
          (conn recon), None).
Proof.
  intros Hb Hs. unfold loopBody, topBottom, popBottom. by rewrite Hb, Hs.
Qed.

(** [case bottom.state == reconStateBottom], a message at hand. *)
Lemma loopBody_reply (recon : reconWithClient)
    (b : bottomEntry) (bq : list bottomEntry) :
  bottomQ recon = b :: bq → state b = reconStateBottom →
  loopBody p true recon =
    handleReply p
      (mkReconWithClient (requestQ recon) bq (rcvrSet recon) (flushing recon)
         (recv (conn recon)).2)
      (recv (conn recon)).1 (bottom_requestEntry b).
Proof.
  destruct recon as [rq bq0 rs fl c]. simpl. intros -> Hs.
  unfold loopBody, topBottom, tryRecv. simpl. rewrite Hs.
  by destruct (recv c) as [msg c'].
Qed.


(** No message at hand, window closed, not yet flushing: the barrier. *)
Lemma loopBody_flush (recon : reconWithClient)
    (b : bottomEntry) (bq : list bottomEntry) :
  bottomQ recon = b :: bq → state b = reconStateBottom →
  windowClosed p recon = true → flushing recon = false →
  loopBody p false recon = Ok (flushQueue recon, None).
Proof.
  destruct recon as [rq bq0 rs fl c]. unfold windowClosed. simpl.
  intros -> Hs Hw ->.
  unfold loopBody, topBottom, tryRecv. simpl. rewrite Hs.
  simpl in Hw. by rewrite Hw.
Qed.

(** No message at hand, window closed, flushing: the blocking receive. *)
Lemma loopBody_block (recon : reconWithClient)
    (b : bottomEntry) (bq : list bottomEntry) :
  bottomQ recon = b :: bq → state b = reconStateBottom →
  windowClosed p recon = true → flushing recon = true →
  loopBody p false recon =
    handleReply p
      (mkReconWithClient (requestQ recon) bq (rcvrSet recon) (flushing recon)
         (recv (conn recon)).2)
      (recv (conn recon)).1 (bottom_requestEntry b).
Proof.
  destruct recon as [rq bq0 rs fl c]. unfold windowClosed. simpl.
  intros -> Hs Hw ->.
  unfold loopBody, topBottom, tryRecv. simpl. rewrite Hs.
  simpl in Hw. rewrite Hw. simpl.
  by destruct (recv c) as [msg c'].
Qed.

(** No message at hand, window open: the next request goes out. *)
Lemma loopBody_pipeline (recon : reconWithClient)
    (b : bottomEntry) (bq : list bottomEntry) :
  bottomQ recon = b :: bq → state b = reconStateBottom →
  windowClosed p recon = false →
  loopBody p false recon =
    (recon' ←! sendRequest p (popRequest recon).2 (popRequest recon).1;
     Ok (recon', None)).
Proof.
  destruct recon as [rq bq0 rs fl c]. unfold windowClosed. simpl.
  intros -> Hs Hw.
  unfold loopBody, topBottom, tryRecv. simpl. rewrite Hs.
  simpl in Hw. rewrite Hw. unfold set_conn. simpl.
  by destruct (popRequest _).
Qed.

End PassFacts.

(** ** Classifying the passes *)

Section PassCases.

Context (p : Peer).

Lemma popRequest_cons (recon : reconWithClient) (req : requestEntry)
    (rq : list requestEntry) :
  requestQ recon = req :: rq →
  popRequest recon =
    (Some req,
     mkReconWithClient rq (bottomQ recon) (rcvrSet recon) (flushing recon)
       (conn recon)).
Proof. intros H. unfold popRequest. by rewrite H. Qed.

Lemma send_pass (recon : reconWithClient) (req : requestEntry)
    (rq : list requestEntry) :
  requestQ recon = req :: rq →
  (recon' ←! sendRequest p (popRequest recon).2 (popRequest recon).1;
   Ok (recon', @None error))
  = Ok (mkReconWithClient rq
          (bottomQ recon ++ [mkBottomEntry (Some req) reconStateBottom])
          (rcvrSet recon) (flushing recon)
          (WriteMsg (conn recon) (requestMsg p req)).1, None).
Proof.
  intros Hq. rewrite (popRequest_cons _ _ _ Hq). simpl.
  by rewrite sendRequest_Some.
Qed.

(** A pass of a well-formed session that is not done never panics, and is
    one of the four kinds. *)
Lemma loopBody_pass (ready : bool) (s : reconWithClient) :
  isDone s = false → wellFormed s →
  ∃ s' e, loopBody p ready s = Ok (s', e) ∧ pass p s s' e.
Proof.
  intros Hnd Hwf.
  destruct (bottomQ s) as [|b bq] eqn:Hb.
  { (* nothing in flight *)
    apply isDone_false in Hnd as [Hq|?]; [|done].
    destruct (requestQ s) as [|req rq] eqn:Hq'; [done|].
    rewrite loopBody_idle by done. rewrite (send_pass _ _ _ Hq').
    do 2 eexists. split; [done|].
    apply pass_send; [done|]. by left. }
  destruct (state b) eqn:Hs.
  2:{ rewrite (loopBody_barrier _ _ _ _ _ Hb Hs).
      do 2 eexists. split; [done|]. by eapply pass_barrier. }
  assert (Hreq : is_Some (bottom_requestEntry b)).
  { unfold wellFormed in Hwf. rewrite Hb in Hwf.
    apply Forall_cons in Hwf as [Hwf _]. by apply Hwf. }
  destruct Hreq as [req Hreq].
  assert (Hreply : ∃ s' e,
    handleReply p
      (mkReconWithClient (requestQ s) bq (rcvrSet s) (flushing s)
         (recv (conn s)).2)
      (recv (conn s)).1 (bottom_requestEntry b) = Ok (s', e)
    ∧ pass p s s' e).
  { rewrite Hreq.
    destruct (handleReply_no_panic p
      (mkReconWithClient (requestQ s) bq (rcvrSet s) (flushing s)
         (recv (conn s)).2) (recv (conn s)).1 req) as (s' & e & Hh).
    exists s', e. split; [done|]. by eapply pass_reply. }
  destruct ready.
  { by rewrite (loopBody_reply _ _ _ _ Hb Hs). }
  destruct (windowClosed p s) eqn:Hw.
  - destruct (flushing s) eqn:Hf.
    + rewrite (loopBody_block _ _ _ _ Hb Hs Hw Hf). by rewrite Hf.
    + rewrite (loopBody_flush _ _ _ _ Hb Hs Hw Hf).
      do 2 eexists. split; [done|]. by eapply pass_flush.
  - rewrite (loopBody_pipeline _ _ _ _ Hb Hs Hw).
    unfold windowClosed in Hw. apply orb_false_iff in Hw as [Hlen Hq].
    apply bool_decide_eq_false in Hlen, Hq.
    destruct (requestQ s) as [|req' rq] eqn:Hq'; [done|].
    rewrite (send_pass _ _ _ Hq').
    do 2 eexists. split; [done|].
    apply pass_send; [done|]. right. lia.
Qed.

Lemma pass_wellFormed (s s' : reconWithClient) (e : option error) :
  pass p s s' e → wellFormed s → wellFormed s'.
Proof.
  unfold wellFormed.
  destruct 1 as [req rq Hq Hwin | b bq Hb Hs | b bq req s' e Hb Hs Hr Hh
                | b bq Hb Hs Hf Hw]; simpl; intros Hwf.
  - apply Forall_app. split; [done|]. apply Forall_singleton. by eexists.
  - rewrite Hb in Hwf. by apply Forall_cons in Hwf as [_ ?].
  - apply handleReply_inv in Hh as (-> & _). simpl.
    rewrite Hb in Hwf. by apply Forall_cons in Hwf as [_ ?].
  - apply Forall_app. split; [done|]. by apply Forall_singleton.
Qed.

Lemma startSession_wellFormed (c : Conn) (root : PrefixNode.t)
    (bitstring : Bitstring) :
  wellFormed (startSession c root bitstring).
Proof. unfold wellFormed. simpl. constructor. Qed.

Lemma reachable_wellFormed (s0 s : reconWithClient) :
  reachable p s0 s → wellFormed s0 → wellFormed s.
Proof.
  induction 1 as [|s ready s' Hreach IH Hnd Hbody]; intros Hwf; [done|].
  specialize (IH Hwf).
  destruct (loopBody_pass ready s Hnd IH) as (s2 & e & Hbody' & Hpass).
  rewrite Hbody in Hbody'. injection Hbody' as <- <-.
  by eapply pass_wellFormed.
Qed.

(** An invariant of the passes holds at every head of the loop. *)
Lemma reachable_ind_pass (Inv : reconWithClient → Prop) (s0 s : reconWithClient) :
  wellFormed s0 → Inv s0 →
  (∀ s1 s2 e, wellFormed s1 → Inv s1 → pass p s1 s2 e → Inv s2) →
  reachable p s0 s → Inv s.
Proof.
  intros Hwf H0 Hstep. induction 1 as [|s ready s' Hreach IH Hnd Hbody];
    [done|].
  pose proof (reachable_wellFormed _ _ Hreach Hwf) as Hwfs.
  destruct (loopBody_pass ready s Hnd Hwfs) as (s2 & e & Hbody' & Hpass).
  rewrite Hbody in Hbody'. injection Hbody' as <- <-.
  by eapply Hstep.
Qed.

End PassCases.

(** ** The window of in-flight requests *)

Section Window.

Context (p : Peer).

Lemma inFlight_app (rq : list requestEntry) (bq1 bq2 : list bottomEntry)
    (rs : gset Zp) (fl : bool) (c : Conn) :
  inFlight (mkReconWithClient rq (bq1 ++ bq2) rs fl c)
  = (length (filter (λ b, isBottom b = true) bq1)
     + length (filter (λ b, isBottom b = true) bq2))%nat.
Proof. unfold inFlight. simpl. by rewrite filter_app, length_app. Qed.

Lemma inFlight_le_length (s : reconWithClient) :
  (inFlight s ≤ length (bottomQ s))%nat.
Proof. unfold inFlight. apply length_filter. Qed.

Lemma inFlight_tail (s : reconWithClient) (b : bottomEntry)
    (bq : list bottomEntry) :
  bottomQ s = b :: bq →
  (length (filter (λ b, isBottom b = true) bq) ≤ inFlight s)%nat.
Proof.
  intros Hb. unfold inFlight. rewrite Hb, filter_cons.
  case_decide; simpl; lia.
Qed.

Lemma pass_inFlight (s s' : reconWithClient) (e : option error) :
  pass p s s' e →
  Z.of_nat (inFlight s) ≤ Z.max (MaxOutstandingReconRequests p) 0 + 1 →
  Z.of_nat (inFlight s') ≤ Z.max (MaxOutstandingReconRequests p) 0 + 1.
Proof.
  destruct 1 as [req rq Hq Hwin | b bq Hb Hs | b bq req s' e Hb Hs Hr Hh
                | b bq Hb Hs Hf Hw]; intros Hinv.
  - rewrite inFlight_app. simpl.
    pose proof (inFlight_le_length s) as Hle. unfold inFlight in Hle.
    destruct Hwin as [Hnil|Hlen].
    + rewrite Hnil. simpl. lia.
    + lia.
  - pose proof (inFlight_tail _ _ _ Hb) as Hle.
    unfold inFlight at 1. simpl. lia.
  - apply handleReply_inv in Hh as (Hbq & _). simpl in Hbq.
    pose proof (inFlight_tail _ _ _ Hb) as Hle.
    unfold inFlight at 1. rewrite Hbq. lia.
  - unfold flushQueue, set_flushing, pushBottom. simpl.
    rewrite inFlight_app. simpl. unfold inFlight in Hinv. lia.
Qed.

(** Above the window no pass sends. *)
Lemma pass_inFlight_closed (s s' : reconWithClient) (e : option error) :
  pass p s s' e →
  Z.max (MaxOutstandingReconRequests p) 0 < Z.of_nat (inFlight s) →
  (inFlight s' ≤ inFlight s)%nat.
Proof.
  destruct 1 as [req rq Hq Hwin | b bq Hb Hs | b bq req s' e Hb Hs Hr Hh
                | b bq Hb Hs Hf Hw]; intros Hfull.
  - exfalso. pose proof (inFlight_le_length s) as Hle.
    destruct Hwin as [Hnil|Hlen].
    + rewrite Hnil in Hle. simpl in Hle. lia.
    + lia.
  - pose proof (inFlight_tail _ _ _ Hb) as Hle.
    unfold inFlight at 1. simpl. lia.
  - apply handleReply_inv in Hh as (Hbq & _). simpl in Hbq.
    pose proof (inFlight_tail _ _ _ Hb) as Hle.
    unfold inFlight at 1. rewrite Hbq. lia.
  - unfold flushQueue, set_flushing, pushBottom. simpl.
    rewrite inFlight_app. simpl. unfold inFlight. lia.
Qed.

Lemma passes_reachable (sched : list bool) :
  ∀ s0 s1 s,
    reachable p s0 s1 → passes p sched s1 = Some s → reachable p s0 s.
Proof.
  induction sched as [|ready sched IH]; intros s0 s1 s Hreach; simpl.
  - by intros [= <-].
  - destruct (isDone s1) eqn:Hnd; [done|].
    destruct (loopBody p ready s1) as [[s2 [e|]]|] eqn:Hbody; try done.
    intros Hrest. eapply IH; [|done]. by eapply reachable_pass.
Qed.

End Window.

(** Claim C1 as stated does not hold.  With [MaxOutstandingReconRequests = 1]
    the session of [twoLeafPeer] runs as follows: the bottom queue is empty
    and the root request goes out; [SyncFail] is at hand, the root entry is
    popped and the two children are queued; the bottom queue is empty again
    and the first child goes out; no reply is at hand, the bottom queue
    holds one entry, which is not more than one, a request is pending, and
    the second child goes out.  Two requests are then in flight and no
    barrier has been pushed. *)
Lemma window_exceeded : ¬ windowRespected twoLeafPeer twoLeafStart.
Proof.
  intros Hclaim.
  destruct twoLeafPipelined as [s|] eqn:Hrun; [|by vm_compute in Hrun].
  assert (Hreach : reachable twoLeafPeer twoLeafStart s).
  { eapply passes_reachable; [apply reachable_start | exact Hrun]. }
  specialize (Hclaim s Hreach).
  vm_compute in Hrun. injection Hrun as <-.
  specialize (Hclaim eq_refl). vm_compute in Hclaim. by apply Hclaim.
Qed.

(** Claim C1, amended.  At every head of the session loop the number of
    in-flight requests in the bottom queue is at most
    [max MaxOutstandingReconRequests 0 + 1]; and once more than
    [max MaxOutstandingReconRequests 0] are in flight, no pass adds
    another. *)
Theorem inFlight_bound (p : Peer) (c : Conn) (root : PrefixNode.t)
    (bitstring : Bitstring) (s : reconWithClient)
    (Hreach : reachable p (startSession c root bitstring) s) :
  Z.of_nat (inFlight s) ≤ Z.max (MaxOutstandingReconRequests p) 0 + 1
  ∧ ∀ ready s' e,
      Z.max (MaxOutstandingReconRequests p) 0 < Z.of_nat (inFlight s) →
      loopBody p ready s = Ok (s', e) →
      (inFlight s' ≤ inFlight s)%nat.
Proof.
  pose proof (startSession_wellFormed c root bitstring) as Hwf0.
  split.
  - apply (reachable_ind_pass p
             (λ s, Z.of_nat (inFlight s)
                   ≤ Z.max (MaxOutstandingReconRequests p) 0 + 1)
             (startSession c root bitstring) s).
    + exact Hwf0.
    + unfold inFlight. simpl. lia.
    + intros s1 s2 e _ Hinv Hpass. by eapply pass_inFlight.
    + exact Hreach.
  - intros ready s' e Hfull Hbody.
    assert (Hnd : isDone s = false).
    { apply isDone_false. right. intros Hnil.
      pose proof (inFlight_le_length s) as Hle. rewrite Hnil in Hle.
      simpl in Hle. lia. }
    destruct (loopBody_pass p ready s Hnd) as (s2 & e2 & Hbody' & Hpass).
    { by eapply reachable_wellFormed. }
    rewrite Hbody in Hbody'. injection Hbody' as <- <-.
    by eapply pass_inFlight_closed.
Qed.

Lemma inFlight_bound_witness :
  ∃ s, twoLeafPipelined = Some s
       ∧ inFlight s = 2%nat
       ∧ Z.of_nat (inFlight s)
         ≤ Z.max (MaxOutstandingReconRequests twoLeafPeer) 0 + 1
       ∧ (inFlight (flushQueue s) ≤ inFlight s)%nat.
Proof.
  destruct twoLeafPipelined as [s|] eqn:Hrun; [|by vm_compute in Hrun].
  exists s. split; [reflexivity|].
  assert (Hreach : reachable twoLeafPeer twoLeafStart s).
  { eapply passes_reachable; [apply reachable_start | exact Hrun]. }
  destruct (inFlight_bound twoLeafPeer (mkConn "remote" [SyncFail] [] [])
              twoLeafRoot [] s Hreach) as [Hbound Hclosed].
  vm_compute in Hrun. injection Hrun as <-.
  split; [reflexivity|]. split; [exact Hbound|].
  apply (Hclosed false _ None); [vm_compute; reflexivity | reflexivity].
Defined.

(** ** The loop *)

Section LoopFacts.

Context (p : Peer).



Lemma sessionLoop_abort (ready : bool) (sched : list bool)
    (recon recon' : reconWithClient) (e : error) :
  isDone recon = false → loopBody p ready recon = Ok (recon', Some e) →
  sessionLoop p (ready :: sched) recon = LoopErr recon' e.
Proof. intros Hnd Hbody. simpl. by rewrite Hnd, Hbody. Qed.

(** What every pass preserves holds when the loop ends, however it ends;
    and the loop of a well-formed session never panics. *)
Lemma sessionLoop_inv (Inv : reconWithClient → Prop) :
  (∀ s1 s2 e, wellFormed s1 → Inv s1 → pass p s1 s2 e → Inv s2) →
  ∀ sched s, wellFormed s → Inv s →
    match sessionLoop p sched s with
    | LoopDone s' => Inv s' ∧ isDone s' = true
    | LoopErr s' _ => Inv s'
    | LoopPanic _ => False
    | LoopPending s' => Inv s'
    end.
Proof.
  intros Hstep. induction sched as [|ready sched IH]; intros s Hwf Hinv; simpl.
  - by destruct (isDone s) eqn:Hnd.
  - destruct (isDone s) eqn:Hnd; [done|].
    destruct (loopBody_pass p ready s Hnd Hwf) as (s' & e & -> & Hpass).
    destruct e as [e|].
    + by eapply Hstep.
    + apply IH; [by eapply pass_wellFormed | by eapply Hstep].
Qed.

Lemma loopBody_never_panics (s0 s : reconWithClient) (ready : bool) :
  wellFormed s0 → reachable p s0 s → isDone s = false →
  ∃ s' e, loopBody p ready s = Ok (s', e).
Proof.
  intros Hwf Hreach Hnd.
  destruct (loopBody_pass p ready s Hnd) as (s' & e & Hbody & _).
  - by eapply reachable_wellFormed.
  - by exists s', e.
Qed.

End LoopFacts.

(** Claim C10.  In a pass of the loop (the session is not done) that finds
    the bottom queue empty, the request queue is not: [popRequest] returns
    its head, [sendRequest] gets a request that is not nil and returns, and
    the pass goes on without error. *)
Theorem popRequest_nonnil_when_idle (p : Peer) (ready : bool)
    (recon : reconWithClient)
    (Hloop : isDone recon = false) (Hnil : topBottom recon = None) :
  ∃ req rq,
    requestQ recon = req :: rq
    ∧ (popRequest recon).1 = Some req
    ∧ ∃ recon',
        sendRequest p (popRequest recon).2 (popRequest recon).1 = Ok recon'
        ∧ loopBody p ready recon = Ok (recon', None).
Proof.
  assert (Hb : bottomQ recon = []).
  { unfold topBottom in Hnil. by destruct (bottomQ recon). }
  apply isDone_false in Hloop as [Hq|?]; [|done].
  destruct (requestQ recon) as [|req rq] eqn:Hq'; [done|].
  exists req, rq. split; [done|].
  rewrite (loopBody_idle p ready recon Hb).
  rewrite (popRequest_cons _ _ _ Hq'). simpl. split; [done|].
  rewrite sendRequest_Some. by eexists.
Qed.

Lemma popRequest_nonnil_when_idle_witness :
  ∃ req rq,
    requestQ twoLeafStart = req :: rq
    ∧ (popRequest twoLeafStart).1 = Some req
    ∧ ∃ recon',
        sendRequest twoLeafPeer (popRequest twoLeafStart).2
          (popRequest twoLeafStart).1 = Ok recon'
        ∧ loopBody twoLeafPeer false twoLeafStart = Ok (recon', None).
Proof.
  apply (popRequest_nonnil_when_idle twoLeafPeer false twoLeafStart);
    reflexivity.
Defined.

(** Claim C3.  On [SyncFail], [handleReply] either finds an internal node
    and appends to the request queue one entry per child, in order, each
    with the child's own key, returning no error and touching nothing else;
    or finds a leaf and returns an error with the session unchanged, upon
    which the loop ends in that error. *)
Theorem SyncFail_descends_or_aborts (p : Peer) (rwc : reconWithClient)
    (req : requestEntry) :
  (PrefixNode.IsLeaf (node req) = false
   ∧ handleReply p rwc (Some SyncFail) (Some req) =
       Ok (mkReconWithClient
             (requestQ rwc
              ++ map (λ child, mkRequestEntry child (PrefixNode.Key child))
                   (PrefixNode.Children (node req)))
             (bottomQ rwc) (rcvrSet rwc) (flushing rwc) (conn rwc), None))
  ∨ (PrefixNode.IsLeaf (node req) = true
     ∧ handleReply p rwc (Some SyncFail) (Some req) =
         Ok (rwc, Some SyncfailAtLeaf)
     ∧ ∀ ready sched recon,
         isDone recon = false →
         loopBody p ready recon =
           handleReply p rwc (Some SyncFail) (Some req) →
         sessionLoop p (ready :: sched) recon = LoopErr rwc SyncfailAtLeaf).
Proof.
  destruct (PrefixNode.IsLeaf (node req)) eqn:Hl.
  - right. split; [done|].
    rewrite handleReply_SyncFail_leaf by done. split; [done|].
    intros ready sched recon Hnd Hbody. by apply sessionLoop_abort.
  - left. split; [done|]. by apply handleReply_SyncFail_internal.
Qed.

Lemma SyncFail_descends_or_aborts_witness :
  sessionLoop leafPeer [true] leafAwaiting = LoopErr leafAnswered SyncfailAtLeaf.
Proof.
  destruct (SyncFail_descends_or_aborts leafPeer leafAnswered leafRequest)
    as [[Hl _] | (_ & _ & Habort)].
  - discriminate Hl.
  - apply Habort; reflexivity.
Defined.

(** ** A request answered by the remote's full contents *)

Section FullExchange.

Context (p : Peer) (req : requestEntry) (zs : gset Zp).

#[local] Arguments handleReply : simpl never.
#[local] Arguments WriteMsg : simpl never.




End FullExchange.



(** ** What the session writes *)

Section WriteFacts.

Context (p : Peer).

(** No pass of the loop writes [Done]. *)
Lemma pass_no_Done (s s' : reconWithClient) (e : option error) :
  pass p s s' e → Done ∉ sent (conn s) → Done ∉ sent (conn s').
Proof.
  destruct 1 as [req rq Hq Hwin | b bq Hb Hs | b bq req s' e Hb Hs Hr Hh
                | b bq Hb Hs Hf Hw]; simpl; intros Hno; try done.
  - destruct (WriteMsg (conn s) (requestMsg p req)) as [c' e'] eqn:HW.
    apply WriteMsg_sent in HW. simpl. rewrite HW.
    rewrite elem_of_app, list_elem_of_singleton.
    intros [?|Heq]; [done|]. symmetry in Heq.
    by apply requestMsg_not_Done in Heq.
  - apply handleReply_inv in Hh as (_ & _ & Hsent & _). simpl in Hsent.
    assert (Hrecv : sent (recv (conn s)).2 = sent (conn s)).
    { destruct (recv (conn s)) as [m c1] eqn:Hrecv.
      apply recv_inv in Hrecv as (Hlog & _). unfold sent. simpl.
      by rewrite Hlog. }
    destruct Hsent as [Hsent | (zs & Hsent)]; rewrite Hsent, Hrecv; [done|].
    rewrite elem_of_app, list_elem_of_singleton. by intros [?|?].
Qed.

(** The session of [interactWithClient] never panics. *)
Lemma interactWithClient_no_panic (c : Conn) (remoteConfig : gmap string string)
    (bitstring : Bitstring) (sched : list bool) (e : panic) :
  interactWithClient p c remoteConfig bitstring sched ≠ Panicked e.
Proof.
  unfold interactWithClient. destruct (Root p) as [err|root]; [done|].
  pose proof (sessionLoop_inv p (λ _, True) (λ _ _ _ _ _ _, I) sched
                (startSession c root bitstring)
                (startSession_wellFormed c root bitstring) I) as Hinv.
  destruct (sessionLoop p sched (startSession c root bitstring)); try done.
  by destruct (WriteMsg (conn recon) Done).
Qed.

End WriteFacts.

(** ** Transport failures *)

(** What [sendRequest] does when its [WriteMsg] fails: the entry is pushed
    all the same, and nothing is reported. *)
Lemma sendRequest_failed_write (p : Peer) (rwc : reconWithClient)
    (req : requestEntry) (w : list bool) :
  wfail (conn rwc) = true :: w →
  ∃ rwc',
    sendRequest p rwc (Some req) = Ok rwc'
    ∧ bottomQ rwc'
      = bottomQ rwc ++ [mkBottomEntry (Some req) reconStateBottom]
    ∧ wlog (conn rwc') = wlog (conn rwc) ++ [(requestMsg p req, false)].
Proof.
  intros Hw. rewrite sendRequest_Some. eexists. split; [done|].
  unfold WriteMsg. rewrite Hw. done.
Qed.

(** A failed read reaches [handleReply] as the nil message and ends the
    session. *)
Lemma read_failure_aborts (p : Peer) (recon : reconWithClient)
    (b : bottomEntry) (bq : list bottomEntry) (sched : list bool) :
  bottomQ recon = b :: bq → state b = reconStateBottom →
  inbound (conn recon) = [] →
  sessionLoop p (true :: sched) recon
  = LoopErr (mkReconWithClient (requestQ recon) bq (rcvrSet recon)
               (flushing recon) (conn recon))
      (UnexpectedMessage None).
Proof.
  intros Hb Hs Hin. apply sessionLoop_abort.
  - apply isDone_false. right. by rewrite Hb.
  - rewrite (loopBody_reply p recon b bq Hb Hs).
    unfold recv. by rewrite Hin.
Qed.

(** Claim C4, evaluated.  On a connection whose first [WriteMsg] fails, the
    session of [leafPeer] goes on: it writes the [Elements] reply and [Done]
    and returns no error.  A failed read, by contrast, ends the session in
    an error after the request alone was written. *)
Theorem write_failure_not_reported :
  (∃ c' r,
     interactWithClient leafPeer brokenConn ∅ [] [true; true]
       = Returned c' [r] None
     ∧ wlog c'
       = [(ReconRqstFull [] (NewZSet [mkZp 5 1; mkZp 5 2]), false);
          (Elements (NewZSet [mkZp 5 1]), true);
          (Done, true)])
  ∧ ∃ c',
      interactWithClient leafPeer silentConn ∅ [] [true; true]
        = Returned c' [] (Some (UnexpectedMessage None))
      ∧ sent c' = [ReconRqstFull [] (NewZSet [mkZp 5 1; mkZp 5 2])].
Proof.
  split.
  - do 2 eexists. split; [vm_compute; reflexivity|]. reflexivity.
  - eexists. split; [vm_compute; reflexivity|]. reflexivity.
Qed.

(** ** The loop ends *)

Section Termination.

Context (p : Peer).

Lemma nodes_unfold (n : PrefixNode.t) :
  nodes n = S (sum_list_with nodes (PrefixNode.Children n)).
Proof. by destruct n. Qed.

Lemma nodes_pos (n : PrefixNode.t) : (0 < nodes n)%nat.
Proof. rewrite nodes_unfold. lia. Qed.

Lemma children_weight (children : list PrefixNode.t) :
  sum_list_with requestWeight (map childRequest children)
  = (4 * sum_list_with nodes children)%nat.
Proof.
  induction children as [|ch rest IH]; simpl; [done|].
  rewrite IH. unfold requestWeight. simpl. lia.
Qed.

(** Handling a reply trades the request for its children at most. *)
Lemma handleReply_weight (rwc rwc' : reconWithClient)
    (msg : option ReconMsg) (req : requestEntry) (e : option error) :
  handleReply p rwc msg (Some req) = Ok (rwc', e) →
  (sum_list_with requestWeight (requestQ rwc') + 4
   ≤ sum_list_with requestWeight (requestQ rwc) + 4 * nodes (node req))%nat.
Proof.
  pose proof (nodes_pos (node req)) as Hpos.
  destruct msg as [[]|]; try (intros [= <- <-]; simpl; lia).
  - rewrite handleReply_FullElements. intros [= <- <-]. simpl. lia.
  - destruct (PrefixNode.IsLeaf (node req)) eqn:Hl.
    + rewrite handleReply_SyncFail_leaf by done. intros [= <- <-]. lia.
    + rewrite handleReply_SyncFail_internal by done. intros [= <- <-].
      simpl. rewrite sum_list_with_app, children_weight.
      rewrite (nodes_unfold (node req)). lia.
Qed.

Lemma flushWeight_range (s : reconWithClient) :
  (1 ≤ flushWeight s ≤ 3)%nat.
Proof. unfold flushWeight. repeat case_match; lia. Qed.

Lemma barriers_cons (s : reconWithClient) (b : bottomEntry)
    (bq : list bottomEntry) :
  bottomQ s = b :: bq →
  barriers s
  = ((if isBottom b then 0 else 1)
     + length (filter (λ b, isBottom b = false) bq))%nat.
Proof.
  intros Hb. unfold barriers. rewrite Hb, filter_cons.
  destruct (isBottom b); simpl; done.
Qed.

Lemma isBottom_state (b : bottomEntry) :
  isBottom b = true ↔ state b = reconStateBottom.
Proof. unfold isBottom. apply bool_decide_eq_true. Qed.

Lemma pass_oneBarrier (s s' : reconWithClient) (e : option error) :
  pass p s s' e → oneBarrier s → oneBarrier s'.
Proof.
  unfold oneBarrier.
  destruct 1 as [req rq Hq Hwin | b bq Hb Hs | b bq req s' e Hb Hs Hr Hh
                | b bq Hb Hs Hf Hw]; intros Hinv.
  - unfold barriers in *. simpl. rewrite filter_app, length_app. simpl.
    lia.
  - rewrite (barriers_cons _ _ _ Hb) in Hinv.
    assert (isBottom b = false) as Hnb.
    { apply not_true_iff_false. rewrite isBottom_state. congruence. }
    rewrite Hnb in Hinv. unfold barriers. simpl.
    destruct (flushing s); lia.
  - apply handleReply_inv in Hh as (Hbq & Hfl & _). simpl in Hbq, Hfl.
    rewrite (barriers_cons _ _ _ Hb) in Hinv.
    unfold barriers. rewrite Hbq, Hfl.
    destruct (isBottom b); lia.
  - rewrite Hf in Hinv. unfold barriers in *. simpl.
    rewrite filter_app, length_app. simpl. lia.
Qed.

(** Every pass uses up some of what is left. *)
Lemma pass_passesLeft (s s' : reconWithClient) (e : option error) :
  pass p s s' e → oneBarrier s → (passesLeft s' < passesLeft s)%nat.
Proof.
  unfold passesLeft.
  destruct 1 as [req rq Hq Hwin | b bq Hb Hs | b bq req s' e Hb Hs Hr Hh
                | b bq Hb Hs Hf Hw]; intros Hinv.
  - pose proof (nodes_pos (node req)) as Hpos.
    rewrite Hq. simpl. rewrite sum_list_with_app. simpl.
    unfold requestWeight at 2.
    assert (Hfw : (flushWeight
              (mkReconWithClient rq
                 (bottomQ s ++ [mkBottomEntry (Some req) reconStateBottom])
                 (rcvrSet s) (flushing s)
                 (WriteMsg (conn s) (requestMsg p req)).1)
            ≤ flushWeight s)%nat).
    { unfold flushWeight. simpl.
      destruct (flushing s); [|done].
      destruct (bottomQ s) as [|b bq]; simpl; [lia|done]. }
    unfold bottomWeight at 2. simpl. lia.
  - unfold oneBarrier in Hinv. rewrite (barriers_cons _ _ _ Hb) in Hinv.
    assert (isBottom b = false) as Hnb.
    { apply not_true_iff_false. rewrite isBottom_state. congruence. }
    rewrite Hnb in Hinv.
    destruct (flushing s) eqn:Hfl; [|lia].
    rewrite Hb. unfold flushWeight. rewrite Hfl, Hb, Hnb. simpl. lia.
  - pose proof (handleReply_weight _ _ _ _ _ Hh) as Hrq. simpl in Hrq.
    apply handleReply_inv in Hh as (Hbq & _). simpl in Hbq.
    pose proof (flushWeight_range s) as Hf1.
    pose proof (flushWeight_range s') as Hf2.
    pose proof (nodes_pos (node req)) as Hpos.
    rewrite Hbq, Hb. simpl. unfold bottomWeight at 2. rewrite Hs, Hr. lia.
  - unfold flushQueue, set_flushing, pushBottom, flushWeight. simpl.
    rewrite Hf, Hb. simpl.
    apply isBottom_state in Hs. rewrite Hs.
    rewrite sum_list_with_app. simpl. lia.
Qed.

(** A schedule as long as what is left sees the loop end. *)
Lemma sessionLoop_ends (sched : list bool) :
  ∀ s, wellFormed s → oneBarrier s → (passesLeft s ≤ length sched)%nat →
       ∀ s', sessionLoop p sched s ≠ LoopPending s'.
Proof.
  induction sched as [|ready sched IH]; intros s Hwf Hone Hlen s'.
  - pose proof (flushWeight_range s). unfold passesLeft in Hlen.
    simpl in Hlen. lia.
  - simpl. destruct (isDone s) eqn:Hnd; [done|].
    destruct (loopBody_pass p ready s Hnd Hwf) as (s2 & e & -> & Hpass).
    destruct e as [e|]; [done|].
    apply IH.
    + by eapply pass_wellFormed.
    + by eapply pass_oneBarrier.
    + pose proof (pass_passesLeft _ _ _ Hpass Hone). simpl in Hlen. lia.
Qed.

(** [interactWithClient] returns: with a schedule of [4 * nodes root + 2]
    passes or more, whatever their timing and whatever the remote sends. *)
Lemma interactWithClient_returns (c : Conn)
    (remoteConfig : gmap string string) (bitstring : Bitstring)
    (sched : list bool) :
  (∀ root, Root p = inr root → (4 * nodes root + 2 ≤ length sched)%nat) →
  ∃ c' recovered err,
    interactWithClient p c remoteConfig bitstring sched
    = Returned c' recovered err.
Proof.
  intros Hlen.
  pose proof (interactWithClient_no_panic p c remoteConfig bitstring sched)
    as Hnp.
  unfold interactWithClient in *.
  destruct (Root p) as [err|root]; [by do 3 eexists|].
  pose proof (sessionLoop_ends sched (startSession c root bitstring)
                (startSession_wellFormed c root bitstring)) as Hends.
  destruct (sessionLoop p sched (startSession c root bitstring))
    as [recon|recon e|e|recon].
  - destruct (WriteMsg (conn recon) Done). by do 3 eexists.
  - by do 3 eexists.
  - by destruct (Hnp e).
  - exfalso. apply (Hends) with (s' := recon); [| |done].
    + unfold oneBarrier, barriers. simpl. lia.
    + specialize (Hlen root eq_refl). unfold passesLeft, flushWeight.
      simpl. unfold requestWeight. simpl. lia.
Qed.

End Termination.

(** ** Recovered elements are delivered last *)

(** Claim C6.  With a schedule long enough for the tree, [interactWithClient]
    returns.  When it returns an error, no [Recover] event was emitted and
    no [Done] was written; when it emitted a [Recover] event, it returned
    no error, the loop had run to its end with both queues empty, the event
    is the only one and carries the accumulated set, which is not empty,
    and [Done] was written once, as the last message. *)
Theorem Recover_only_after_success (p : Peer) (c : Conn)
    (remoteConfig : gmap string string) (bitstring : Bitstring)
    (sched : list bool)
    (Hfresh : Done ∉ sent c) :
  ((∀ root, Root p = inr root → (4 * nodes root + 2 ≤ length sched)%nat) →
   ∃ c' recovered err,
     interactWithClient p c remoteConfig bitstring sched
     = Returned c' recovered err)
  ∧ ∀ c' recovered err,
      interactWithClient p c remoteConfig bitstring sched
      = Returned c' recovered err →
      (err ≠ None → recovered = [] ∧ (Done ∉ sent c'))
      ∧ (recovered ≠ [] →
         err = None
         ∧ ∃ root recon,
             Root p = inr root
             ∧ sessionLoop p sched (startSession c root bitstring)
               = LoopDone recon
             ∧ requestQ recon = [] ∧ bottomQ recon = []
             ∧ Items (rcvrSet recon) ≠ []
             ∧ recovered
               = [mkRecover (connRemoteAddr c') ∅ (Items (rcvrSet recon))]
             ∧ (Done ∉ sent (conn recon))
             ∧ sent c' = sent (conn recon) ++ [Done]).
Proof.
  split; [apply interactWithClient_returns|].
  intros c' recovered err Hrun.
  unfold interactWithClient in Hrun.
  destruct (Root p) as [e0|root] eqn:Hroot.
  { injection Hrun as <- <- <-. split; [done|]. done. }
  pose proof (sessionLoop_inv p (λ s, Done ∉ sent (conn s))
                (λ s1 s2 e _ Hinv Hpass, pass_no_Done p s1 s2 e Hpass Hinv)
                sched (startSession c root bitstring)
                (startSession_wellFormed c root bitstring) Hfresh) as Hinv.
  destruct (sessionLoop p sched (startSession c root bitstring))
    as [recon|recon e|e|recon] eqn:Hloop; try done.
  - destruct Hinv as [Hno Hdone]. apply isDone_true in Hdone as [Hq Hb].
    destruct (WriteMsg (conn recon) Done) as [c1 e1] eqn:HW.
    injection Hrun as <- <- <-. split; [done|].
    intros Hrec. split; [done|].
    exists root, recon. apply WriteMsg_sent in HW.
    case_bool_decide as Hlen; [|done].
    split_and!; try done.
    destruct (Items (rcvrSet recon)); [simpl in Hlen; lia | done].
  - injection Hrun as <- <- <-. split; [done|]. done.
Qed.

Lemma Recover_only_after_success_witness :
  ∃ c' r recon,
    interactWithClient leafPeer leafConn ∅ []
      [true; true; true; true; true; true]
      = Returned c' [r] None
    ∧ sessionLoop leafPeer [true; true; true; true; true; true]
        (startSession leafConn leafRoot [])
      = LoopDone recon
    ∧ RemoteElements r = Items (rcvrSet recon)
    ∧ sent c' = sent (conn recon) ++ [Done].
Proof.
  destruct (Recover_only_after_success leafPeer leafConn ∅ []
              [true; true; true; true; true; true]) as [Hret Hrec].
  { compute_done. }
  destruct Hret as (c' & recovered & err & Hrun).
  { intros root [= <-]. vm_compute. lia. }
  specialize (Hrec c' recovered err Hrun) as [_ Hrec].
  pose proof Hrun as Hval. vm_compute in Hval.
  injection Hval as <- <- <-.
  destruct Hrec as (_ & root & recon & Hroot & Hloop & _ & _ & _ & Hr
                    & _ & Hsent); [done|].
  injection Hroot as <-.
  do 2 eexists. exists recon.
  split; [exact Hrun|]. split; [exact Hloop|]. split; [|exact Hsent].
  injection Hr as Hr. exact Hr.
Defined.

(** * Further facts *)

Import Moduli Trace Handshake.

(** ** Sums in a field *)

Section SumFacts.


Lemma sumZ_app (vs ws : list Zp) : sumZ (vs ++ ws) = sumZ vs + sumZ ws.
Proof. induction vs as [|v vs IH]; simpl; [done|]. rewrite IH. lia. Qed.

(** The receiver after operands of its own modulus. *)
Lemma Add_closed_form (values : list Zp) :
  ∀ zp, zpP zp ≠ 0 → Forall (λ v, zpP v = zpP zp) values → values ≠ [] →
        Add zp values =
          Ok (mkZp (zpP zp) ((zpZ zp + sumZ values) `mod` Z.abs (zpP zp))).
Proof.
  induction values as [|v rest IH]; intros zp Hp Hsame Hne; [done|].
  apply Forall_cons in Hsame as [Hv Hrest].
  rewrite Add_cons_same by done. rewrite normalize_Ok by done. simpl.
  destruct rest as [|w rest'].
  - simpl. by rewrite Z.add_0_r.
  - rewrite IH; [|done|done|done]. simpl. do 2 f_equal.
    rewrite Z.add_mod_idemp_l by lia. f_equal. lia.
Qed.


End SumFacts.



(** Property X2.  Adding operands in two calls is adding them in one:
    [zp.Add(vs...).Add(ws...)] is [zp.Add(vs..., ws...)], panic included. *)
Theorem Add_chain (vs ws : list Zp) (zp : Zp) :
  Add zp (vs ++ ws) = (r ←! Add zp vs; Add r ws).
Proof.
  revert zp. induction vs as [|v vs IH]; intros zp; simpl; [done|].
  destruct (assertZp zp v); simpl; [|done].
  destruct (normalize _) as [zp'|e]; simpl; [|done].
  apply IH.
Qed.



(** ** Normal forms and odd moduli *)

(** Property X4.  [normalize] is idempotent: what it returns is an element
    of the same modulus with its value in [0, |p|), which a second
    [normalize], or [NewZp] on its modulus and value, leaves as it is. *)
Theorem normalize_idempotent (zp r : Zp) (Hnorm : normalize zp = Ok r) :
  zpP r = zpP zp
  ∧ 0 ≤ zpZ r < Z.abs (zpP r)
  ∧ normalize r = Ok r
  ∧ NewZp (zpP r) (zpZ r) = Ok r.
Proof.
  unfold normalize, big_Mod in Hnorm.
  case_decide as Hp; [done|]. simpl in Hnorm. injection Hnorm as <-.
  simpl. split; [done|].
  assert (Hrange : 0 ≤ zpZ zp `mod` Z.abs (zpP zp) < Z.abs (zpP zp)).
  { apply Z.mod_pos_bound. lia. }
  split; [done|].
  assert (Hagain : normalize (mkZp (zpP zp) (zpZ zp `mod` Z.abs (zpP zp)))
                   = Ok (mkZp (zpP zp) (zpZ zp `mod` Z.abs (zpP zp)))).
  { rewrite normalize_Ok by done. simpl.
    by rewrite Z.mod_mod by lia. }
  split; [exact Hagain|]. exact Hagain.
Qed.

Lemma normalize_idempotent_witness :
  zpP (mkZp (-7) 4) = zpP (mkZp (-7) (-10))
  ∧ 0 ≤ zpZ (mkZp (-7) 4) < Z.abs (zpP (mkZp (-7) 4))
  ∧ normalize (mkZp (-7) 4) = Ok (mkZp (-7) 4)
  ∧ NewZp (zpP (mkZp (-7) 4)) (zpZ (mkZp (-7) 4)) = Ok (mkZp (-7) 4).
Proof.
  apply (normalize_idempotent (mkZp (-7) (-10)) (mkZp (-7) 4)). reflexivity.
Defined.

(** Property X5.  [NewZp] outside the positive moduli: a zero modulus
    panics with a division by zero; a negative modulus [p] is kept as it is
    and the value is [n mod (-p)], in [0, -p), so that the value is not
    below the modulus. *)
Theorem NewZp_nonpositive (p n : Z) (Hp : p ≤ 0) :
  (p = 0 ∧ NewZp p n = Panic DivisionByZero)
  ∨ (p < 0
     ∧ NewZp p n = Ok (mkZp p (n `mod` (- p)))
     ∧ 0 ≤ n `mod` (- p) < - p
     ∧ ¬ (n `mod` (- p) < p)).
Proof.
  destruct (decide (p = 0)) as [->|Hnz].
  - left. split; [done|]. reflexivity.
  - right. assert (Hneg : p < 0) by lia. split; [done|].
    assert (Hrange : 0 ≤ n `mod` (- p) < - p)
      by (apply Z.mod_pos_bound; lia).
    split; [|split; [done|lia]].
    unfold NewZp. rewrite normalize_Ok by done. simpl.
    by rewrite Z.abs_neq by lia.
Qed.

Lemma NewZp_nonpositive_witness :
  NewZp (-5) (-1) = Ok (mkZp (-5) 4) ∧ NewZp 0 3 = Panic DivisionByZero.
Proof.
  split.
  - destruct (NewZp_nonpositive (-5) (-1)) as [[Hz _]|(_ & Hval & _)];
      [lia | discriminate Hz | exact Hval].
  - destruct (NewZp_nonpositive 0 3) as [[_ Hpanic]|(Hneg & _)];
      [lia | exact Hpanic | lia].
Defined.

Section BytesFacts.

Lemma SetBytes_from (buf : list Z) :
  ∀ acc, foldl (λ acc b, acc * 256 + b) acc buf
         = acc * 256 ^ Z.of_nat (length buf) + SetBytes buf.
Proof.
  unfold SetBytes.
  induction buf as [|b rest IH]; intros acc; simpl.
  - lia.
  - rewrite (IH (acc * 256 + b)), (IH (0 * 256 + b)).
    rewrite Nat2Z.inj_succ, Z.pow_succ_r by lia. lia.
Qed.

Lemma SetBytes_cons (b : Z) (rest : list Z) :
  SetBytes (b :: rest) = b * 256 ^ Z.of_nat (length rest) + SetBytes rest.
Proof. unfold SetBytes at 1. simpl. by rewrite SetBytes_from. Qed.

Lemma SetBytes_range (buf : list Z) :
  Forall (λ b, 0 ≤ b < 256) buf →
  0 ≤ SetBytes buf < 256 ^ Z.of_nat (length buf).
Proof.
  induction 1 as [|b rest Hb _ IH].
  - unfold SetBytes. simpl. lia.
  - rewrite SetBytes_cons. simpl length.
    rewrite Nat2Z.inj_succ, Z.pow_succ_r by lia.
    assert (0 < 256 ^ Z.of_nat (length rest)) by (apply Z.pow_pos_nonneg; lia).
    nia.
Qed.

End BytesFacts.

(** Bytes in [0, 256) whose first has its top bit set make a number of
    exactly eight bits per byte. *)
Lemma SetBytes_bits (b0 : Z) (rest : list Z)
    (Hbytes : Forall (λ b, 0 ≤ b < 256) (b0 :: rest))
    (Hlead : 128 ≤ b0) :
  2 ^ (8 * Z.of_nat (length (b0 :: rest)) - 1) ≤ SetBytes (b0 :: rest)
  ∧ SetBytes (b0 :: rest) < 2 ^ (8 * Z.of_nat (length (b0 :: rest))).
Proof.
  pose proof (SetBytes_range _ Hbytes) as [_ Hhi].
  apply Forall_cons in Hbytes as [Hb0 Hrest].
  pose proof (SetBytes_range _ Hrest) as [Hlo _].
  assert (H256 : ∀ k, 0 ≤ k → 256 ^ k = 2 ^ (8 * k)).
  { intros k Hk. change 256 with (2 ^ 8). rewrite <- Z.pow_mul_r; lia. }
  split.
  - rewrite SetBytes_cons. simpl length. rewrite Nat2Z.inj_succ.
    rewrite H256 by lia.
    replace (8 * Z.succ (Z.of_nat (length rest)) - 1)
      with (7 + 8 * Z.of_nat (length rest)) by lia.
    rewrite Z.pow_add_r by lia.
    assert (0 < 2 ^ (8 * Z.of_nat (length rest)))
      by (apply Z.pow_pos_nonneg; lia).
    change (2 ^ 7) with 128. nia.
  - rewrite <- H256 by lia. exact Hhi.
Qed.

(** Property X6.  The four named moduli are odd numbers of 128, 160, 256
    and 512 bits: each is written with as many bytes as its name says, and
    none fits the [int64] arguments of [NewZp]. *)
Theorem named_moduli :
  (length p_128_bytes = 16%nat ∧ 2 ^ 127 ≤ p_128 < 2 ^ 128
   ∧ Z.odd p_128 = true ∧ ¬ int64 p_128)
  ∧ (length p_160_bytes = 20%nat ∧ 2 ^ 159 ≤ p_160 < 2 ^ 160
     ∧ Z.odd p_160 = true ∧ ¬ int64 p_160)
  ∧ (length p_256_bytes = 32%nat ∧ 2 ^ 255 ≤ p_256 < 2 ^ 256
     ∧ Z.odd p_256 = true ∧ ¬ int64 p_256)
  ∧ (length p_512_bytes = 64%nat ∧ 2 ^ 511 ≤ p_512 < 2 ^ 512
     ∧ Z.odd p_512 = true ∧ ¬ int64 p_512).
Proof.
  assert (Hbig : ∀ k x, 64 ≤ k → 2 ^ k ≤ x → ¬ int64 x).
  { intros k x Hk Hx [_ Hhi].
    assert (2 ^ 63 < 2 ^ k) by (apply Z.pow_lt_mono_r; lia). lia. }
  assert (Hbits : ∀ b0 rest,
    Forall (λ b, 0 ≤ b < 256) (b0 :: rest) → 128 ≤ b0 →
    2 ^ (8 * Z.of_nat (length (b0 :: rest)) - 1) ≤ SetBytes (b0 :: rest)
    < 2 ^ (8 * Z.of_nat (length (b0 :: rest)))).
  { intros b0 rest Hbytes Hlead. by apply SetBytes_bits. }
  assert (H128 : 2 ^ 127 ≤ p_128 < 2 ^ 128).
  { apply (Hbits 0x91 (tail p_128_bytes)); [repeat constructor; lia | lia]. }
  assert (H160 : 2 ^ 159 ≤ p_160 < 2 ^ 160).
  { apply (Hbits 0x81 (tail p_160_bytes)); [repeat constructor; lia | lia]. }
  assert (H256 : 2 ^ 255 ≤ p_256 < 2 ^ 256).
  { apply (Hbits 0x8c (tail p_256_bytes)); [repeat constructor; lia | lia]. }
  assert (H512 : 2 ^ 511 ≤ p_512 < 2 ^ 512).
  { apply (Hbits 0xae (tail p_512_bytes)); [repeat constructor; lia | lia]. }
  split_and!; try reflexivity; try done.
  - apply (Hbig 127); [lia | apply H128].
  - apply (Hbig 159); [lia | apply H160].
  - apply (Hbig 255); [lia | apply H256].
  - apply (Hbig 511); [lia | apply H512].
Qed.

(** ** The receiver among its operands *)

(** Property X7.  [Add] reads each operand when its turn comes: with the
    receiver [a] listed after [b], [a.Add(b, a)] leaves in [a] twice the sum
    of the two values, not the sum of [b] and twice the value [a] had; and
    [a.Add(a)] doubles [a]. *)
Theorem Add_at_aliased (h : gmap nat Zp) (a b : nat) (x y : Zp)
    (Ha : h !! a = Some x) (Hb : h !! b = Some y) (Hab : a ≠ b)
    (Hsame : zpP x = zpP y) (Hp : zpP x ≠ 0) :
  Add_at h a [b; a] =
    Ok (<[a := mkZp (zpP x) ((2 * (zpZ x + zpZ y)) `mod` Z.abs (zpP x))]> h)
  ∧ Add x [y; x] =
      Ok (mkZp (zpP x) ((2 * zpZ x + zpZ y) `mod` Z.abs (zpP x)))
  ∧ Add_at h a [a] =
      Ok (<[a := mkZp (zpP x) ((2 * zpZ x) `mod` Z.abs (zpP x))]> h).
Proof.
  split_and!.
  - simpl. rewrite Ha, Hb. unfold assertZp at 1.
    rewrite decide_True by done. simpl.
    rewrite normalize_Ok by done. simpl.
    rewrite lookup_insert_eq. unfold assertZp. simpl.
    rewrite decide_True by done. simpl.
    rewrite normalize_Ok by done. simpl.
    rewrite insert_insert_eq. do 3 f_equal.
    rewrite <- Z.add_mod by lia. f_equal. lia.
  - rewrite Add_closed_form; [|done|by repeat constructor|done].
    simpl. do 3 f_equal. lia.
  - rewrite (Add_at_self h a x Ha Hp). do 4 f_equal. lia.
Qed.

Lemma Add_at_aliased_witness :
  Add_at {[1%nat := mkZp 5 1; 2%nat := mkZp 5 1]} 1 [2%nat; 1%nat]
    = Ok (<[1%nat := mkZp 5 4]> {[1%nat := mkZp 5 1; 2%nat := mkZp 5 1]})
  ∧ Add (mkZp 5 1) [mkZp 5 1; mkZp 5 1] = Ok (mkZp 5 3).
Proof.
  destruct (Add_at_aliased {[1%nat := mkZp 5 1; 2%nat := mkZp 5 1]}
              1 2 (mkZp 5 1) (mkZp 5 1)) as (Hstore & Hvalue & _).
  - reflexivity.
  - reflexivity.
  - lia.
  - reflexivity.
  - simpl. lia.
  - split; [exact Hstore | exact Hvalue].
Defined.

(** Property X8.  With the receiver not among its operands, [Add] on the
    store computes what it computes on the values, leaves the result in
    the receiver, and changes no other object, the operands included. *)
Theorem Add_at_frame (h h' : gmap nat Zp) (zp : nat) (values : list nat)
    (x : Zp) (ys : list Zp)
    (Hzp : h !! zp = Some x)
    (Hfresh : zp ∉ values)
    (Hops : Forall2 (λ v y, h !! v = Some y) values ys)
    (Hrun : Add_at h zp values = Ok h') :
  (∃ r, Add x ys = Ok r ∧ h' !! zp = Some r ∧ zpP r = zpP x)
  ∧ (∀ l, l ≠ zp → h' !! l = h !! l)
  ∧ Forall2 (λ v y, h' !! v = Some y) values ys.
Proof.
  rewrite (Add_at_fresh values h zp x ys Hzp Hfresh Hops) in Hrun.
  destruct (Add x ys) as [r|e] eqn:Hadd; [|done].
  simpl in Hrun. injection Hrun as <-.
  split_and!.
  - exists r. split; [done|]. split; [apply lookup_insert_eq|].
    by eapply Add_keeps_modulus.
  - intros l Hl. by rewrite lookup_insert_ne.
  - by apply lookups_insert_fresh.
Qed.

Lemma Add_at_frame_witness :
  ∃ r, Add (mkZp 5 1) [mkZp 5 9] = Ok r
       ∧ (<[1%nat := mkZp 5 0]> {[1%nat := mkZp 5 1; 2%nat := mkZp 5 9]}
            : gmap nat Zp) !! 1%nat = Some r.
Proof.
  destruct (Add_at_frame {[1%nat := mkZp 5 1; 2%nat := mkZp 5 9]}
              (<[1%nat := mkZp 5 0]> {[1%nat := mkZp 5 1; 2%nat := mkZp 5 9]})
              1 [2%nat] (mkZp 5 1) [mkZp 5 9])
    as ((r & Hadd & Hlook & _) & _ & _).
  - reflexivity.
  - compute_done.
  - repeat constructor.
  - reflexivity.
  - exists r. split; [exact Hadd | exact Hlook].
Defined.

(** Property X9.  On the store too a foreign operand stops [Add]: an
    operand that is nil, or whose modulus is not the receiver's, makes the
    call panic, wherever it stands among the operands and whatever aliases
    what. *)
Theorem Add_at_rejects (h : gmap nat Zp) (zp v : nat) (values : list nat)
    (x : Zp)
    (Hzp : h !! zp = Some x)
    (Hin : v ∈ values)
    (Hforeign : h !! v = None ∨ ∃ y, h !! v = Some y ∧ zpP y ≠ zpP x) :
  panics (Add_at h zp values) ∧ ∀ h', Add_at h zp values ≠ Ok h'.
Proof.
  assert (Hp : panics (Add_at h zp values)).
  { apply (Add_at_panics_on_mismatch values h zp v x Hzp Hin).
    intros y Hy. destruct Hforeign as [Hnil|(y' & Hy' & Hne)].
    - congruence.
    - rewrite Hy in Hy'. by injection Hy' as <-. }
  split; [exact Hp|].
  intros h' Hok. destruct Hp as [e He]. congruence.
Qed.

Lemma Add_at_rejects_witness :
  panics (Add_at {[1%nat := mkZp 5 1; 2%nat := mkZp 5 3]} 1 [2%nat; 7%nat]).
Proof.
  apply (Add_at_rejects {[1%nat := mkZp 5 1; 2%nat := mkZp 5 3]} 1 7
           [2%nat; 7%nat] (mkZp 5 1)).
  - reflexivity.
  - compute_done.
  - left. reflexivity.
Defined.

(** ** Heads of the loop *)

Section Heads.

Context (p : Peer).

(** Where the loop ends is a head of the loop, or one failed pass past
    one. *)
Lemma sessionLoop_reachable (sched : list bool) :
  ∀ s0 s, reachable p s0 s →
    match sessionLoop p sched s with
    | LoopDone s' => reachable p s0 s' ∧ isDone s' = true
    | LoopErr s' err =>
        ∃ s1 ready, reachable p s0 s1 ∧ isDone s1 = false
                    ∧ loopBody p ready s1 = Ok (s', Some err)
    | LoopPanic e =>
        ∃ s1 ready, reachable p s0 s1 ∧ isDone s1 = false
                    ∧ loopBody p ready s1 = Panic e
    | LoopPending s' => reachable p s0 s'
    end.
Proof.
  induction sched as [|ready sched IH]; intros s0 s Hreach; simpl.
  - by destruct (isDone s) eqn:Hnd.
  - destruct (isDone s) eqn:Hnd; [done|].
    destruct (loopBody p ready s) as [[s' [err|]]|e] eqn:Hbody.
    + by exists s, ready.
    + apply IH. by eapply reachable_pass.
    + by exists s, ready.
Qed.

(** An invariant of the passes that go on holds at every head of the
    loop. *)
Lemma reachable_ind_ok (Inv : reconWithClient → Prop)
    (s0 s : reconWithClient) :
  wellFormed s0 → Inv s0 →
  (∀ s1 s2, wellFormed s1 → Inv s1 → pass p s1 s2 None → Inv s2) →
  reachable p s0 s → Inv s.
Proof.
  intros Hwf H0 Hstep. induction 1 as [|s ready s' Hreach IH Hnd Hbody];
    [done|].
  pose proof (reachable_wellFormed p _ _ Hreach Hwf) as Hwfs.
  destruct (loopBody_pass p ready s Hnd Hwfs) as (s2 & e & Hbody' & Hpass).
  rewrite Hbody in Hbody'. injection Hbody' as <- <-.
  by eapply Hstep.
Qed.

(** A failed pass is a reply that [handleReply] turned down. *)
Lemma pass_failed (s s' : reconWithClient) (err : error) :
  pass p s s' (Some err) →
  ∃ b bq req,
    bottomQ s = b :: bq ∧ state b = reconStateBottom
    ∧ bottom_requestEntry b = Some req
    ∧ handleReply p
        (mkReconWithClient (requestQ s) bq (rcvrSet s) (flushing s)
           (recv (conn s)).2)
        (recv (conn s)).1 (Some req) = Ok (s', Some err).
Proof.
  inversion 1 as [| | b bq req s2 e Hb Hs Hr Hh|]; subst.
  by exists b, bq, req.
Qed.

Lemma sent_recv (c : Conn) : sent (recv c).2 = sent c.
Proof.
  destruct (recv c) as [m c1] eqn:Hrecv.
  apply recv_inv in Hrecv as (Hlog & _). unfold sent. simpl. by rewrite Hlog.
Qed.

Lemma inbound_recv (c : Conn) :
  inbound c = from_option (λ m, [m]) [] (recv c).1 ++ inbound (recv c).2.
Proof.
  unfold recv. destruct (inbound c) as [|m rest] eqn:Hin; simpl; [|done].
  by rewrite Hin.
Qed.

Lemma inbound_WriteMsg (c : Conn) (msg : ReconMsg) :
  inbound (WriteMsg c msg).1 = inbound c.
Proof.
  destruct (WriteMsg c msg) as [c' e] eqn:HW.
  by apply WriteMsg_inv in HW as (_ & Hin & _).
Qed.

Lemma sent_WriteMsg (c : Conn) (msg : ReconMsg) :
  sent (WriteMsg c msg).1 = sent c ++ [msg].
Proof.
  destruct (WriteMsg c msg) as [c' e] eqn:HW. by apply WriteMsg_sent in HW.
Qed.

(** What [handleReply] does to the session, reply by reply. *)
Lemma handleReply_cases (rwc rwc' : reconWithClient)
    (msg : option ReconMsg) (req : requestEntry) (e : option error) :
  handleReply p rwc msg (Some req) = Ok (rwc', e) →
  (e = None ∧ msg = Some SyncFail
   ∧ PrefixNode.IsLeaf (node req) = false
   ∧ rwc' = mkReconWithClient
              (requestQ rwc
               ++ map childRequest (PrefixNode.Children (node req)))
              (bottomQ rwc) (rcvrSet rwc) (flushing rwc) (conn rwc))
  ∨ (∃ zs, e = None ∧ msg = Some (Elements zs)
           ∧ rwc' = set_rcvrSet (AddAll (rcvrSet rwc) zs) rwc)
  ∨ (∃ zs, e = None ∧ msg = Some (FullElements zs)
           ∧ rwc' = mkReconWithClient (requestQ rwc) (bottomQ rwc)
                      (AddAll (rcvrSet rwc)
                         (ZSetDiff zs
                            (NewZSet (PrefixNode.Elements (node req)))))
                      (flushing rwc)
                      (WriteMsg (conn rwc)
                         (Elements
                            (ZSetDiff
                               (NewZSet (PrefixNode.Elements (node req)))
                               zs))).1)
  ∨ (e ≠ None ∧ accepted msg req = false ∧ rwc' = rwc).
Proof.
  destruct msg as [[]|].
  all: try (intros [= <- <-]; do 3 right; by split_and!).
  - intros [= <- <-]. right. left. by eexists.
  - rewrite handleReply_FullElements. intros [= <- <-].
    right. right. left. by eexists.
  - destruct (PrefixNode.IsLeaf (node req)) eqn:Hl.
    + rewrite handleReply_SyncFail_leaf by done. intros [= <- <-].
      do 3 right. split_and!; [done| |done]. simpl. by rewrite Hl.
    + rewrite handleReply_SyncFail_internal by done. intros [= <- <-].
      by left.
Qed.

End Heads.

(** ** Sessions end, and end well *)

(** Property X10.  The loop of a session ends: whatever the remote sends,
    whatever the timing of the receives and whichever writes fail, after at
    most [4 * nodes root + 2] passes the loop has ended, with both queues
    empty or in an error, and it has not panicked. *)
Theorem session_ends (p : Peer) (c : Conn) (root : PrefixNode.t)
    (bitstring : Bitstring) (sched : list bool)
    (Hlong : (4 * nodes root + 2 ≤ length sched)%nat) :
  (∃ recon,
     sessionLoop p sched (startSession c root bitstring) = LoopDone recon
     ∧ requestQ recon = [] ∧ bottomQ recon = [])
  ∨ (∃ recon err,
       sessionLoop p sched (startSession c root bitstring)
       = LoopErr recon err).
Proof.
  pose proof (startSession_wellFormed c root bitstring) as Hwf.
  pose proof (sessionLoop_inv p (λ _, True) (λ _ _ _ _ _ _, I) sched
                (startSession c root bitstring) Hwf I) as Hinv.
  pose proof (sessionLoop_ends p sched (startSession c root bitstring) Hwf)
    as Hends.
  destruct (sessionLoop p sched (startSession c root bitstring))
    as [recon|recon e|e|recon].
  - left. exists recon. destruct Hinv as [_ Hdone].
    apply isDone_true in Hdone as [Hq Hb]. done.
  - right. by exists recon, e.
  - done.
  - exfalso. apply (Hends) with (s' := recon); [| |done].
    + unfold oneBarrier, barriers. simpl. lia.
    + unfold passesLeft, flushWeight, requestWeight. simpl. lia.
Qed.

Lemma session_ends_witness :
  (∃ recon,
     sessionLoop twoLeafPeer (replicate 14 false) twoLeafStart
     = LoopDone recon
     ∧ requestQ recon = [] ∧ bottomQ recon = [])
  ∨ (∃ recon err,
       sessionLoop twoLeafPeer (replicate 14 false) twoLeafStart
       = LoopErr recon err).
Proof.
  apply (session_ends twoLeafPeer (mkConn "remote" [SyncFail] [] [])
           twoLeafRoot [] (replicate 14 false)).
  vm_compute. lia.
Defined.

(** Property X11.  At every head of the loop each in-flight entry of the
    bottom queue carries its request, so that [handleReply] is never handed
    a nil request and no pass of the loop panics. *)
Theorem no_nil_request (p : Peer) (c : Conn) (root : PrefixNode.t)
    (bitstring : Bitstring) (s : reconWithClient)
    (Hreach : reachable p (startSession c root bitstring) s) :
  Forall (λ b, state b = reconStateBottom → is_Some (bottom_requestEntry b))
    (bottomQ s)
  ∧ length (awaited s) = inFlight s
  ∧ (isDone s = false →
     ∀ ready, ∃ s' e, loopBody p ready s = Ok (s', e)).
Proof.
  pose proof (reachable_wellFormed p _ _ Hreach
                (startSession_wellFormed c root bitstring)) as Hwf.
  split; [exact Hwf|]. split.
  - unfold awaited, inFlight. unfold wellFormed in Hwf.
    induction Hwf as [|b bq Hb _ IH]; [done|].
    rewrite filter_cons. simpl. destruct (isBottom b) eqn:Hib.
    + apply isBottom_state in Hib. destruct (Hb Hib) as [req ->].
      rewrite decide_True by done. simpl. f_equal. exact IH.
    + rewrite decide_False by done. exact IH.
  - intros Hnd ready.
    destruct (loopBody_pass p ready s Hnd Hwf) as (s' & e & Hbody & _).
    by exists s', e.
Qed.

Lemma no_nil_request_witness :
  ∃ s, twoLeafPipelined = Some s ∧ length (awaited s) = 2%nat
       ∧ ∃ s' e, loopBody twoLeafPeer true s = Ok (s', e).
Proof.
  destruct twoLeafPipelined as [s|] eqn:Hrun; [|by vm_compute in Hrun].
  exists s. split; [reflexivity|].
  assert (Hreach : reachable twoLeafPeer twoLeafStart s).
  { eapply passes_reachable; [apply reachable_start | exact Hrun]. }
  destruct (no_nil_request twoLeafPeer (mkConn "remote" [SyncFail] [] [])
              twoLeafRoot [] s Hreach) as (_ & Hlen & Hgo).
  vm_compute in Hrun. injection Hrun as <-.
  split; [exact Hlen|]. apply Hgo. reflexivity.
Defined.

Section Barrier.

Context (p : Peer).

Lemma pass_barrier_count (s s' : reconWithClient) (e : option error) :
  pass p s s' e →
  barriers s = (if flushing s then 1 else 0)%nat →
  barriers s' = (if flushing s' then 1 else 0)%nat.
Proof.
  destruct 1 as [req rq Hq Hwin | b bq Hb Hs | b bq req s' e Hb Hs Hr Hh
                | b bq Hb Hs Hf Hw]; intros Hinv.
  - unfold barriers in *. simpl. rewrite filter_app, length_app. simpl.
    lia.
  - rewrite (barriers_cons _ _ _ Hb) in Hinv.
    assert (isBottom b = false) as Hnb.
    { apply not_true_iff_false. rewrite isBottom_state. congruence. }
    rewrite Hnb in Hinv. unfold barriers. simpl.
    destruct (flushing s); lia.
  - apply handleReply_inv in Hh as (Hbq & Hfl & _). simpl in Hbq, Hfl.
    rewrite (barriers_cons _ _ _ Hb) in Hinv.
    apply isBottom_state in Hs. rewrite Hs in Hinv.
    unfold barriers. rewrite Hbq, Hfl. exact Hinv.
  - rewrite Hf in Hinv. unfold barriers in *. simpl.
    rewrite filter_app, length_app. simpl. lia.
Qed.

End Barrier.

(** Property X12.  The bottom queue holds a [FlushEnded] barrier exactly
    while the session is flushing, and never two: at every head of the loop
    the number of barriers is one if [flushing] is set and none if it is
    not. *)
Theorem barrier_iff_flushing (p : Peer) (c : Conn) (root : PrefixNode.t)
    (bitstring : Bitstring) (s : reconWithClient)
    (Hreach : reachable p (startSession c root bitstring) s) :
  barriers s = (if flushing s then 1 else 0)%nat
  ∧ (length (bottomQ s) = inFlight s + barriers s)%nat.
Proof.
  split.
  - apply (reachable_ind_pass p
             (λ s, barriers s = (if flushing s then 1 else 0)%nat)
             (startSession c root bitstring) s).
    + apply startSession_wellFormed.
    + reflexivity.
    + intros s1 s2 e _ Hinv Hpass. by eapply pass_barrier_count.
    + exact Hreach.
  - unfold inFlight, barriers.
    induction (bottomQ s) as [|b bq IH]; [done|].
    rewrite !filter_cons. simpl.
    destruct (isBottom b); simpl; lia.
Qed.

Lemma barrier_iff_flushing_witness :
  ∃ s, passes twoLeafPeer [true; false] twoLeafStart = Some s
       ∧ flushing s = true ∧ barriers s = 1%nat.
Proof.
  destruct (passes twoLeafPeer [true; false] twoLeafStart) as [s|] eqn:Hrun;
    [|by vm_compute in Hrun].
  exists s. split; [reflexivity|].
  assert (Hreach : reachable twoLeafPeer twoLeafStart s).
  { eapply passes_reachable; [apply reachable_start | exact Hrun]. }
  destruct (barrier_iff_flushing twoLeafPeer (mkConn "remote" [SyncFail] [] [])
              twoLeafRoot [] s Hreach) as [Hcount _].
  vm_compute in Hrun. injection Hrun as <-.
  split; [reflexivity|]. exact Hcount.
Defined.

(** ** Requests and replies, in order *)

Section Order.

Context (p : Peer).

Lemma isRequest_requestMsg (req : requestEntry) :
  isRequest (requestMsg p req) = true.
Proof. unfold requestMsg. by case_match. Qed.

Lemma requestsWritten_WriteMsg (c : Conn) (msg : ReconMsg) :
  requestsWritten (WriteMsg c msg).1
  = requestsWritten c ++ (if isRequest msg then [msg] else []).
Proof.
  unfold requestsWritten. rewrite sent_WriteMsg, filter_app.
  f_equal. rewrite filter_cons, filter_nil.
  destruct (isRequest msg); by simpl.
Qed.

Lemma requestsWritten_recv (c : Conn) :
  requestsWritten (recv c).2 = requestsWritten c.
Proof. unfold requestsWritten. by rewrite sent_recv. Qed.

Lemma awaited_cons_bottom (s : reconWithClient) (b : bottomEntry)
    (bq : list bottomEntry) (req : requestEntry) :
  bottomQ s = b :: bq → state b = reconStateBottom →
  bottom_requestEntry b = Some req →
  awaited s
  = req :: omap (λ b, if isBottom b then bottom_requestEntry b else None) bq.
Proof.
  intros Hb Hs Hr. unfold awaited. rewrite Hb. simpl.
  apply isBottom_state in Hs. by rewrite Hs, Hr.
Qed.

Lemma awaited_cons_barrier (s : reconWithClient) (b : bottomEntry)
    (bq : list bottomEntry) :
  bottomQ s = b :: bq → state b = reconStateFlushEnded →
  awaited s
  = omap (λ b, if isBottom b then bottom_requestEntry b else None) bq.
Proof.
  intros Hb Hs. unfold awaited. rewrite Hb. simpl.
  assert (isBottom b = false) as ->; [|done].
  apply not_true_iff_false. rewrite isBottom_state. congruence.
Qed.

Lemma pass_inOrder (c0 : Conn) (s s' : reconWithClient) :
  pass p s s' None → inOrder p c0 s → inOrder p c0 s'.
Proof.
  intros Hpass (answered & consumed & Hin & Hreq & Hlen).
  inversion Hpass as [req rq Hq Hwin | b bq Hb Hs | b bq req s2 e Hb Hs Hr Hh
                     | b bq Hb Hs Hf Hw]; subst.
  - exists answered, consumed. simpl. rewrite inbound_WriteMsg.
    split; [done|]. split; [|done].
    rewrite requestsWritten_WriteMsg, isRequest_requestMsg, Hreq.
    unfold awaited. simpl. rewrite omap_app, map_app. simpl.
    by rewrite <- !app_assoc.
  - exists answered, consumed. simpl. split; [done|]. split; [|done].
    rewrite Hreq, (awaited_cons_barrier _ _ _ Hb Hs). done.
  - pose proof (inbound_recv (conn s)) as Hrecv.
    rewrite (awaited_cons_bottom _ _ _ _ Hb Hs Hr) in Hreq.
    apply handleReply_cases in Hh
      as [(_ & Hmsg & _ & ->) | [(zs & _ & Hmsg & ->)
         | [(zs & _ & Hmsg & ->) | (Herr & _)]]]; [| | |done].
    all: rewrite Hmsg in Hrecv; simpl in Hrecv.
    all: eexists (answered ++ [requestMsg p req]), (consumed ++ [_]).
    all: simpl; rewrite ?inbound_WriteMsg.
    all: split; [by rewrite Hin, Hrecv, <- app_assoc|].
    all: split; [|rewrite !length_app; simpl; lia].
    all: rewrite ?requestsWritten_WriteMsg, requestsWritten_recv, Hreq.
    all: unfold awaited; simpl; rewrite <- ?app_assoc; simpl.
    all: by rewrite ?app_nil_r.
  - exists answered, consumed. split; [done|]. split; [|done].
    change (conn (flushQueue s)) with (conn s).
    rewrite Hreq. unfold awaited. simpl. rewrite omap_app. simpl.
    by rewrite app_nil_r.
Qed.

Lemma reachable_inOrder (c : Conn) (root : PrefixNode.t)
    (bitstring : Bitstring) (s : reconWithClient) :
  reachable p (startSession c root bitstring) s → inOrder p c s.
Proof.
  apply reachable_ind_ok.
  - apply startSession_wellFormed.
  - exists [], []. simpl. split; [done|]. split; [|done].
    unfold awaited. simpl. by rewrite app_nil_r.
  - intros s1 s2 _ Hinv Hpass. by eapply pass_inOrder.
Qed.

End Order.

(** Property X13.  Replies are matched to requests by order alone.  At every
    head of the loop the requests written on the connection are, in order,
    those already answered, as many as replies were consumed, followed by
    those in flight in the order of the bottom queue; so the next reply is
    handed to [handleReply] with the oldest request in flight, which is the
    request written at the position of the count of replies consumed. *)
Theorem replies_in_order (p : Peer) (c : Conn) (root : PrefixNode.t)
    (bitstring : Bitstring) (s : reconWithClient)
    (Hreach : reachable p (startSession c root bitstring) s) :
  ∃ answered consumed,
    inbound c = consumed ++ inbound (conn s)
    ∧ requestsWritten (conn s)
      = requestsWritten c ++ answered ++ map (requestMsg p) (awaited s)
    ∧ length answered = length consumed
    ∧ ∀ b bq,
        bottomQ s = b :: bq → state b = reconStateBottom →
        ∃ req,
          bottom_requestEntry b = Some req
          ∧ requestsWritten (conn s)
              !! (length (requestsWritten c) + length consumed)%nat
            = Some (requestMsg p req)
          ∧ loopBody p true s =
              handleReply p
                (mkReconWithClient (requestQ s) bq (rcvrSet s) (flushing s)
                   (recv (conn s)).2)
                (recv (conn s)).1 (Some req).
Proof.
  destruct (reachable_inOrder p c root bitstring s Hreach)
    as (answered & consumed & Hin & Hreq & Hlen).
  exists answered, consumed. split_and!; try done.
  intros b bq Hb Hs.
  pose proof (reachable_wellFormed p _ _ Hreach
                (startSession_wellFormed c root bitstring)) as Hwf.
  unfold wellFormed in Hwf. rewrite Hb in Hwf.
  apply Forall_cons in Hwf as [Hsome _]. destruct (Hsome Hs) as [req Hr].
  exists req. split; [done|]. split.
  - rewrite Hreq, (awaited_cons_bottom _ _ _ _ Hb Hs Hr). simpl.
    rewrite lookup_app_r by lia.
    rewrite lookup_app_r by lia.
    replace (length (requestsWritten c) + length consumed
             - length (requestsWritten c) - length answered)%nat
      with 0%nat by lia.
    done.
  - rewrite (loopBody_reply p s b bq Hb Hs). by rewrite Hr.
Qed.

Lemma replies_in_order_witness :
  ∃ s answered consumed,
    twoLeafPipelined = Some s
    ∧ inbound (mkConn "remote" [SyncFail] [] []) = consumed ++ inbound (conn s)
    ∧ requestsWritten (conn s)
      = requestsWritten (mkConn "remote" [SyncFail] [] [])
        ++ answered ++ map (requestMsg twoLeafPeer) (awaited s)
    ∧ length answered = length consumed.
Proof.
  destruct twoLeafPipelined as [s|] eqn:Hrun; [|by vm_compute in Hrun].
  assert (Hreach : reachable twoLeafPeer twoLeafStart s).
  { eapply passes_reachable; [apply reachable_start | exact Hrun]. }
  destruct (replies_in_order twoLeafPeer (mkConn "remote" [SyncFail] [] [])
              twoLeafRoot [] s Hreach)
    as (answered & consumed & Hin & Hreq & Hlen & _).
  exists s, answered, consumed. done.
Defined.

(** ** The session keeps to its tree *)

Section Confinement.

Context (p : Peer) (root : PrefixNode.t) (bitstring : Bitstring) (c0 : Conn).

Lemma ofTree_child (req : requestEntry) (child : PrefixNode.t) :
  ofTree root bitstring req → child ∈ PrefixNode.Children (node req) →
  ofTree root bitstring (childRequest child).
Proof.
  intros [Hin _] Hchild. split.
  - by eapply inTree_child.
  - by right.
Qed.

Lemma pass_confined (s s' : reconWithClient) (e : option error) :
  pass p s s' e → wellFormed s →
  confined p root bitstring c0 s → confined p root bitstring c0 s'.
Proof.
  intros Hpass Hwf (Hrq & Haw & written & Hsent & Hall).
  inversion Hpass as [req rq Hq Hwin | b bq Hb Hs | b bq req s2 e2 Hb Hs Hr Hh
                     | b bq Hb Hs Hf Hw]; subst.
  - rewrite Hq in Hrq. apply Forall_cons in Hrq as [Hreq Hrq].
    split_and!; simpl.
    + done.
    + unfold awaited. simpl. rewrite omap_app. apply Forall_app.
      split; [done|]. simpl. by apply Forall_singleton.
    + exists (written ++ [requestMsg p req]).
      rewrite sent_WriteMsg, Hsent, <- app_assoc. split; [done|].
      apply Forall_app. split; [done|]. apply Forall_singleton.
      exists req. split; [done|]. by left.
  - rewrite (awaited_cons_barrier _ _ _ Hb Hs) in Haw.
    split_and!; simpl; [done|done|]. by exists written.
  - rewrite (awaited_cons_bottom _ _ _ _ Hb Hs Hr) in Haw.
    apply Forall_cons in Haw as [Hreq Haw].
    apply handleReply_cases in Hh
      as [(_ & _ & _ & ->) | [(zs & _ & _ & ->)
         | [(zs & _ & _ & ->) | (_ & _ & ->)]]]; simpl.
    + split_and!; simpl.
      * apply Forall_app. split; [done|]. apply Forall_map.
        apply Forall_forall. intros child Hchild. by eapply ofTree_child.
      * done.
      * exists written. by rewrite sent_recv.
    + split_and!; simpl; [done|done|].
      exists written. by rewrite sent_recv.
    + split_and!; simpl; [done|done|].
      eexists (written ++ [_]).
      rewrite sent_WriteMsg, sent_recv, Hsent, <- app_assoc.
      split; [done|]. apply Forall_app. split; [done|].
      apply Forall_singleton. exists req. split; [done|]. right.
      by eexists.
    + split_and!; simpl; [done|done|].
      exists written. by rewrite sent_recv.
  - split_and!; simpl; [done| |by exists written].
    unfold awaited. simpl. rewrite omap_app. simpl. by rewrite app_nil_r.
Qed.

Lemma startSession_confined :
  confined p root bitstring c0 (startSession c0 root bitstring).
Proof.
  split_and!; simpl.
  - apply Forall_singleton. split; [constructor|]. by left.
  - constructor.
  - exists []. by rewrite app_nil_r.
Qed.

(** What a message of the tree carries is held by a node of the tree. *)
Lemma fromTree_carried (msg : ReconMsg) (x : Zp) :
  fromTree p root bitstring msg → x ∈ carried msg →
  ∃ n, inTree root n ∧ x ∈ PrefixNode.Elements n.
Proof.
  intros (req & [Hin _] & [->|(zs & ->)]) Hx.
  - unfold requestMsg in Hx. case_match; simpl in Hx.
    + apply NewZSet_elem_of in Hx. by exists (node req).
    + by apply not_elem_of_empty in Hx.
  - simpl in Hx. apply ZSetDiff_elem_of in Hx as [Hx _].
    apply NewZSet_elem_of in Hx. by exists (node req).
Qed.

End Confinement.

(** Property X14.  The session only asks about its own tree: at every head
    of the loop each request, queued or in flight, is for a node of the tree
    under the root, and carries the key the session was given if it is the
    root request, the node's own key otherwise. *)
Theorem requests_of_tree (p : Peer) (c : Conn) (root : PrefixNode.t)
    (bitstring : Bitstring) (s : reconWithClient)
    (Hreach : reachable p (startSession c root bitstring) s) :
  ∀ req, req ∈ requestQ s ∨ req ∈ awaited s →
         inTree root (node req)
         ∧ (req = mkRequestEntry root bitstring
            ∨ key req = PrefixNode.Key (node req)).
Proof.
  assert (Hconf : confined p root bitstring c s).
  { apply (reachable_ind_pass p (confined p root bitstring c)
             (startSession c root bitstring) s).
    - apply startSession_wellFormed.
    - apply startSession_confined.
    - intros s1 s2 e Hwf Hinv Hpass. by eapply pass_confined.
    - exact Hreach. }
  destruct Hconf as (Hrq & Haw & _).
  intros req [Hin|Hin].
  - by apply (proj1 (Forall_forall _ _) Hrq req).
  - by apply (proj1 (Forall_forall _ _) Haw req).
Qed.

Lemma requests_of_tree_witness :
  ∃ s, twoLeafPipelined = Some s
       ∧ ∀ req, req ∈ awaited s →
                inTree twoLeafRoot (node req)
                ∧ (req = mkRequestEntry twoLeafRoot []
                   ∨ key req = PrefixNode.Key (node req)).
Proof.
  destruct twoLeafPipelined as [s|] eqn:Hrun; [|by vm_compute in Hrun].
  exists s. split; [reflexivity|].
  assert (Hreach : reachable twoLeafPeer twoLeafStart s).
  { eapply passes_reachable; [apply reachable_start | exact Hrun]. }
  intros req Hin.
  apply (requests_of_tree twoLeafPeer (mkConn "remote" [SyncFail] [] [])
           twoLeafRoot [] s Hreach req).
  by right.
Defined.

(** Property X15.  A session writes nothing but its own: whatever
    [interactWithClient] has written when it returns is a request for a node
    of the tree, an [Elements] message, or the closing [Done]; it never
    writes [Config], [SyncFail] or [FullElements], and every element it
    writes is held by a node of the tree. *)
Theorem session_writes_own_tree (p : Peer) (c c' : Conn)
    (remoteConfig : gmap string string) (bitstring : Bitstring)
    (sched : list bool) (root : PrefixNode.t) (recovered : list Recover)
    (err : option error)
    (Hroot : Root p = inr root)
    (Hrun : interactWithClient p c remoteConfig bitstring sched
            = Returned c' recovered err) :
  ∃ written,
    sent c' = sent c ++ written
    ∧ Forall (λ msg, msg = Done ∨ fromTree p root bitstring msg) written
    ∧ ∀ msg, msg ∈ written →
        (isRequest msg = true ∨ (∃ zs, msg = Elements zs) ∨ msg = Done)
        ∧ ∀ x, x ∈ carried msg →
               ∃ n, inTree root n ∧ x ∈ PrefixNode.Elements n.
Proof.
  assert (Hkinds : ∀ written,
    Forall (λ msg, msg = Done ∨ fromTree p root bitstring msg) written →
    ∀ msg, msg ∈ written →
      (isRequest msg = true ∨ (∃ zs, msg = Elements zs) ∨ msg = Done)
      ∧ ∀ x, x ∈ carried msg →
             ∃ n, inTree root n ∧ x ∈ PrefixNode.Elements n).
  { intros written Hall msg Hin.
    apply (proj1 (Forall_forall _ _) Hall) in Hin as [->|Hfrom].
    - split; [by right; right|]. intros x Hx.
      by apply not_elem_of_empty in Hx.
    - split; [|intros x Hx; by eapply fromTree_carried].
      destruct Hfrom as (req & _ & [->|(zs & ->)]).
      + left. apply isRequest_requestMsg.
      + right. left. by eexists. }
  unfold interactWithClient in Hrun. rewrite Hroot in Hrun.
  pose proof (sessionLoop_inv p (confined p root bitstring c)
                (λ s1 s2 e Hwf Hinv Hpass,
                   pass_confined p root bitstring c s1 s2 e Hpass Hwf Hinv)
                sched (startSession c root bitstring)
                (startSession_wellFormed c root bitstring)
                (startSession_confined p root bitstring c)) as Hinv.
  destruct (sessionLoop p sched (startSession c root bitstring))
    as [recon|recon e|e|recon]; try done.
  - destruct Hinv as [(_ & _ & written & Hsent & Hall) _].
    pose proof (sent_WriteMsg (conn recon) Done) as Hdone.
    destruct (WriteMsg (conn recon) Done) as [c1 e1].
    injection Hrun as <- _ _. simpl in Hdone.
    assert (Hall' : Forall (λ msg, msg = Done ∨ fromTree p root bitstring msg)
                      (written ++ [Done])).
    { apply Forall_app. split.
      - eapply Forall_impl; [exact Hall|]. intros msg Hm. by right.
      - apply Forall_singleton. by left. }
    exists (written ++ [Done]).
    split; [by rewrite Hdone, Hsent, <- app_assoc|].
    split; [exact Hall'|]. by apply Hkinds.
  - destruct Hinv as (_ & _ & written & Hsent & Hall).
    injection Hrun as <- _ _.
    assert (Hall' : Forall (λ msg, msg = Done ∨ fromTree p root bitstring msg)
                      written).
    { eapply Forall_impl; [exact Hall|]. intros msg Hm. by right. }
    exists written. split; [done|]. split; [exact Hall'|]. by apply Hkinds.
Qed.

Lemma session_writes_own_tree_witness :
  ∃ c' recovered err written,
    interactWithClient leafPeer leafConn ∅ [] [true; true]
      = Returned c' recovered err
    ∧ sent c' = sent leafConn ++ written
    ∧ Forall (λ msg, msg = Done ∨ fromTree leafPeer leafRoot [] msg) written.
Proof.
  destruct (interactWithClient leafPeer leafConn ∅ [] [true; true])
    as [c' recovered err| |] eqn:Hrun;
    [|vm_compute in Hrun; discriminate..].
  destruct (session_writes_own_tree leafPeer leafConn c' ∅ [] [true; true]
              leafRoot recovered err eq_refl Hrun)
    as (written & Hsent & Hall & _).
  by exists c', recovered, err, written.
Defined.

(** ** What is recovered was offered *)

Section Soundness.

Context (p : Peer) (c0 : Conn).

Lemma pass_sound (s s' : reconWithClient) (e : option error) :
  pass p s s' e → sound c0 s → sound c0 s'.
Proof.
  intros Hpass (consumed & Hin & Hrs).
  inversion Hpass as [req rq Hq Hwin | b bq Hb Hs | b bq req s2 e2 Hb Hs Hr Hh
                     | b bq Hb Hs Hf Hw]; subst.
  - exists consumed. simpl. by rewrite inbound_WriteMsg.
  - by exists consumed.
  - pose proof (inbound_recv (conn s)) as Hrecv.
    apply handleReply_cases in Hh
      as [(_ & Hmsg & _ & ->) | [(zs & _ & Hmsg & ->)
         | [(zs & _ & Hmsg & ->) | (_ & _ & ->)]]].
    + rewrite Hmsg in Hrecv. simpl in Hrecv.
      exists (consumed ++ [SyncFail]). simpl.
      split; [by rewrite Hin, Hrecv, <- app_assoc|].
      intros x Hx. destruct (Hrs x Hx) as (m & Hm & Hoff).
      exists m. split; [|done]. apply elem_of_app. by left.
    + rewrite Hmsg in Hrecv. simpl in Hrecv.
      exists (consumed ++ [Elements zs]). simpl.
      split; [by rewrite Hin, Hrecv, <- app_assoc|].
      intros x Hx. apply AddAll_elem_of in Hx as [Hx|Hx].
      * destruct (Hrs x Hx) as (m & Hm & Hoff).
        exists m. split; [|done]. apply elem_of_app. by left.
      * exists (Elements zs). split; [|done].
        apply elem_of_app. right. by apply list_elem_of_singleton.
    + rewrite Hmsg in Hrecv. simpl in Hrecv.
      exists (consumed ++ [FullElements zs]). simpl.
      rewrite inbound_WriteMsg.
      split; [by rewrite Hin, Hrecv, <- app_assoc|].
      intros x Hx. apply AddAll_elem_of in Hx as [Hx|Hx].
      * destruct (Hrs x Hx) as (m & Hm & Hoff).
        exists m. split; [|done]. apply elem_of_app. by left.
      * apply ZSetDiff_elem_of in Hx as [Hx _].
        exists (FullElements zs). split; [|done].
        apply elem_of_app. right. by apply list_elem_of_singleton.
    + exists (consumed ++ from_option (λ m, [m]) [] (recv (conn s)).1).
      simpl. split; [by rewrite Hin, Hrecv at 1; rewrite <- app_assoc|].
      intros x Hx. destruct (Hrs x Hx) as (m & Hm & Hoff).
      exists m. split; [|done]. apply elem_of_app. by left.
  - by exists consumed.
Qed.

End Soundness.

(** Property X16.  The session recovers only what the remote offered: every
    element of the [Recover] event that [interactWithClient] emits was
    carried by an [Elements] or [FullElements] message among those the
    session consumed from the connection; the event lists no element
    twice. *)
Theorem recovered_was_offered (p : Peer) (c c' : Conn)
    (remoteConfig : gmap string string) (bitstring : Bitstring)
    (sched : list bool) (recovered : list Recover) (err : option error)
    (Hrun : interactWithClient p c remoteConfig bitstring sched
            = Returned c' recovered err) :
  ∃ consumed,
    inbound c = consumed ++ inbound c'
    ∧ ∀ r, r ∈ recovered →
        NoDup (RemoteElements r)
        ∧ ∀ x, x ∈ RemoteElements r →
               ∃ msg, msg ∈ consumed ∧ x ∈ offered msg.
Proof.
  unfold interactWithClient in Hrun.
  destruct (Root p) as [e0|root].
  { injection Hrun as <- <- _. exists []. split; [done|].
    intros r Hr. by apply elem_of_nil in Hr. }
  assert (Hstart : sound c (startSession c root bitstring)).
  { exists []. split; [done|]. intros x Hx. simpl in Hx.
    by apply not_elem_of_empty in Hx. }
  pose proof (sessionLoop_inv p (sound c)
                (λ s1 s2 e _ Hinv Hpass, pass_sound p c s1 s2 e Hpass Hinv)
                sched (startSession c root bitstring)
                (startSession_wellFormed c root bitstring) Hstart) as Hinv.
  destruct (sessionLoop p sched (startSession c root bitstring))
    as [recon|recon e|e|recon]; try done.
  - destruct Hinv as [(consumed & Hin & Hrs) _].
    pose proof (inbound_WriteMsg (conn recon) Done) as Hdone.
    destruct (WriteMsg (conn recon) Done) as [c1 e1].
    injection Hrun as <- <- _. simpl in Hdone.
    exists consumed. split; [by rewrite Hdone|].
    intros r Hr. case_bool_decide; [|by apply elem_of_nil in Hr].
    apply list_elem_of_singleton in Hr as ->. simpl.
    split; [apply Items_NoDup|].
    intros x Hx. apply Items_elem_of in Hx. by apply Hrs.
  - destruct Hinv as (consumed & Hin & _).
    injection Hrun as <- <- _. exists consumed. split; [done|].
    intros r Hr. by apply elem_of_nil in Hr.
Qed.

Lemma recovered_was_offered_witness :
  ∃ c' r consumed,
    interactWithClient leafPeer leafConn ∅ [] [true; true]
      = Returned c' [r] None
    ∧ inbound leafConn = consumed ++ inbound c'
    ∧ ∀ x, x ∈ RemoteElements r → ∃ msg, msg ∈ consumed ∧ x ∈ offered msg.
Proof.
  destruct (interactWithClient leafPeer leafConn ∅ [] [true; true])
    as [c' recovered err| |] eqn:Hrun;
    [|vm_compute in Hrun; discriminate..].
  destruct (recovered_was_offered leafPeer leafConn c' ∅ [] [true; true]
              recovered err Hrun) as (consumed & Hin & Hrec).
  pose proof Hrun as Hval. vm_compute in Hval.
  injection Hval as <- <- <-.
  do 2 eexists. exists consumed. split; [exact Hrun|]. split; [exact Hin|].
  apply Hrec. by apply list_elem_of_singleton.
Defined.

(** ** The verdict on a reply *)

(** Property X17.  [handleReply] turns a reply down exactly when it is not
    [Elements], [FullElements] or a [SyncFail] for an internal node: the nil
    message of a closed channel and every other tag are errors, as is
    [SyncFail] for a leaf; and a reply turned down leaves the session as it
    was, nothing queued, nothing recovered, nothing written. *)
Theorem handleReply_verdict (p : Peer) (rwc : reconWithClient)
    (msg : option ReconMsg) (req : requestEntry) :
  ∃ rwc' e,
    handleReply p rwc msg (Some req) = Ok (rwc', e)
    ∧ (e = None ↔ accepted msg req = true)
    ∧ (e ≠ None → rwc' = rwc)
    ∧ bottomQ rwc' = bottomQ rwc ∧ flushing rwc' = flushing rwc
    ∧ inbound (conn rwc') = inbound (conn rwc).
Proof.
  destruct (handleReply_no_panic p rwc msg req) as (rwc' & e & Hh).
  exists rwc', e. split; [exact Hh|].
  apply handleReply_cases in Hh
    as [(-> & -> & Hleaf & ->) | [(zs & -> & -> & ->)
       | [(zs & -> & -> & ->) | (Herr & Hacc & ->)]]]; simpl.
  - rewrite Hleaf. by split_and!.
  - by split_and!.
  - rewrite inbound_WriteMsg. by split_and!.
  - split_and!; try done. split; [done|]. intros Htrue. congruence.
Qed.

(** ** A session that succeeds has asked *)

Section Asked.

Context (p : Peer).

Lemma pass_sent_extends (s s' : reconWithClient) (e : option error) :
  pass p s s' e → ∃ ext, sent (conn s') = sent (conn s) ++ ext.
Proof.
  destruct 1 as [req rq Hq Hwin | b bq Hb Hs | b bq req s' e Hb Hs Hr Hh
                | b bq Hb Hs Hf Hw]; simpl.
  - eexists. apply sent_WriteMsg.
  - exists []. by rewrite app_nil_r.
  - apply handleReply_inv in Hh as (_ & _ & Hsent & _). simpl in Hsent.
    rewrite sent_recv in Hsent.
    destruct Hsent as [->|(zs & ->)]; [exists []; by rewrite app_nil_r|].
    by eexists.
  - exists []. by rewrite app_nil_r.
Qed.

(** Past its first pass the session has written the root request, before
    anything else. *)
Lemma reachable_asked (c : Conn) (root : PrefixNode.t)
    (bitstring : Bitstring) (s : reconWithClient) :
  reachable p (startSession c root bitstring) s →
  s = startSession c root bitstring
  ∨ ∃ middle,
      sent (conn s)
      = sent c ++ requestMsg p (mkRequestEntry root bitstring) :: middle.
Proof.
  apply (reachable_ind_pass p
           (λ s, s = startSession c root bitstring
                 ∨ ∃ middle,
                     sent (conn s)
                     = sent c
                       ++ requestMsg p (mkRequestEntry root bitstring)
                          :: middle)).
  - apply startSession_wellFormed.
  - by left.
  - intros s1 s2 e _ [->|(middle & Hsent)] Hpass; right.
    + inversion Hpass as [req rq Hq Hwin | b bq Hb Hs
                         | b bq req s3 e3 Hb Hs Hr Hh | b bq Hb Hs Hf Hw];
        subst; try done.
      simpl in Hq. injection Hq as <- <-.
      exists []. simpl. by rewrite sent_WriteMsg.
    + destruct (pass_sent_extends _ _ _ Hpass) as (ext & Hext).
      exists (middle ++ ext). rewrite Hext, Hsent.
      by rewrite <- app_assoc.
Qed.

Lemma interactWithClient_asks (c c' : Conn)
    (remoteConfig : gmap string string) (bitstring : Bitstring)
    (sched : list bool) (root : PrefixNode.t) (recovered : list Recover) :
  Root p = inr root →
  interactWithClient p c remoteConfig bitstring sched
  = Returned c' recovered None →
  ∃ recon middle,
    reachable p (startSession c root bitstring) recon
    ∧ requestQ recon = [] ∧ bottomQ recon = []
    ∧ sent (conn recon)
      = sent c ++ requestMsg p (mkRequestEntry root bitstring) :: middle
    ∧ sent c' = sent (conn recon) ++ [Done]
    ∧ inbound c' = inbound (conn recon).
Proof.
  intros Hroot Hrun. unfold interactWithClient in Hrun. rewrite Hroot in Hrun.
  pose proof (sessionLoop_reachable p sched (startSession c root bitstring)
                (startSession c root bitstring)
                (reachable_start p _)) as Hend.
  destruct (sessionLoop p sched (startSession c root bitstring))
    as [recon|recon e|e|recon]; try done.
  destruct Hend as [Hreach Hdone].
  pose proof (sent_WriteMsg (conn recon) Done) as Hsent.
  pose proof (inbound_WriteMsg (conn recon) Done) as Hin.
  destruct (WriteMsg (conn recon) Done) as [c1 e1].
  injection Hrun as <- _. simpl in Hsent, Hin.
  pose proof Hdone as Hdone'. apply isDone_true in Hdone' as [Hq Hb].
  destruct (reachable_asked c root bitstring recon Hreach)
    as [->|(middle & Hasked)]; [done|].
  by exists recon, middle.
Qed.

End Asked.

(** Property X18.  A session never succeeds without asking: when
    [interactWithClient] returns no error it has written the request for the
    root first and [Done] last, it has consumed at least one reply, and it
    has written exactly as many requests as it has consumed replies. *)
Theorem session_asks_before_done (p : Peer) (c c' : Conn)
    (remoteConfig : gmap string string) (bitstring : Bitstring)
    (sched : list bool) (root : PrefixNode.t) (recovered : list Recover)
    (Hroot : Root p = inr root)
    (Hrun : interactWithClient p c remoteConfig bitstring sched
            = Returned c' recovered None) :
  ∃ middle consumed,
    sent c'
    = sent c ++ requestMsg p (mkRequestEntry root bitstring)
             :: middle ++ [Done]
    ∧ inbound c = consumed ++ inbound c'
    ∧ consumed ≠ []
    ∧ length (requestsWritten c')
      = (length (requestsWritten c) + length consumed)%nat.
Proof.
  destruct (interactWithClient_asks p c c' remoteConfig bitstring sched root
              recovered Hroot Hrun)
    as (recon & middle & Hreach & Hq & Hb & Hasked & Hsent & Hin).
  destruct (reachable_inOrder p c root bitstring recon Hreach)
    as (answered & consumed & Hcons & Hreq & Hlen).
  assert (Hnone : awaited recon = []) by (unfold awaited; by rewrite Hb).
  rewrite Hnone in Hreq. simpl in Hreq. rewrite app_nil_r in Hreq.
  assert (Hsame : requestsWritten c' = requestsWritten (conn recon)).
  { unfold requestsWritten. rewrite Hsent, filter_app.
    rewrite filter_cons, filter_nil. simpl. by rewrite app_nil_r. }
  exists middle, consumed. split_and!.
  - by rewrite Hsent, Hasked, <- app_assoc.
  - by rewrite Hin.
  - intros ->. simpl in Hlen. apply nil_length_inv in Hlen as ->.
    rewrite app_nil_r in Hreq. unfold requestsWritten in Hreq.
    rewrite Hasked, filter_app, filter_cons in Hreq.
    rewrite isRequest_requestMsg in Hreq.
    rewrite decide_True in Hreq by done.
    apply (f_equal length) in Hreq. rewrite length_app in Hreq.
    simpl in Hreq. lia.
  - rewrite Hsame, Hreq, length_app. lia.
Qed.

Lemma session_asks_before_done_witness :
  ∃ c' recovered middle consumed,
    interactWithClient leafPeer leafConn ∅ [] [true; true]
      = Returned c' recovered None
    ∧ sent c'
      = sent leafConn ++ requestMsg leafPeer (mkRequestEntry leafRoot [])
                      :: middle ++ [Done]
    ∧ inbound leafConn = consumed ++ inbound c'
    ∧ consumed ≠ [].
Proof.
  destruct (interactWithClient leafPeer leafConn ∅ [] [true; true])
    as [c' recovered err| |] eqn:Hrun;
    [|vm_compute in Hrun; discriminate..].
  assert (Herr : err = None).
  { pose proof Hrun as Hval. vm_compute in Hval. by injection Hval as _ _ <-. }
  subst err.
  destruct (session_asks_before_done leafPeer leafConn c' ∅ [] [true; true]
              leafRoot recovered eq_refl Hrun)
    as (middle & consumed & Hsent & Hin & Hne & _).
  by exists c', recovered, middle, consumed.
Defined.

(** ** The handshake *)

Section HandshakeFacts.

Context (p : Peer) (localConfig : gmap string string).

(** Past a [Config] read and a [Config] written, [accept] is the session
    on what is left of the connection, under the empty key. *)
Lemma accept_session (c : Conn) (remoteConfig : gmap string string)
    (rest : list ReconMsg) (sched : list bool) :
  inbound c = Config remoteConfig :: rest →
  (WriteMsg (mkConn (connRemoteAddr c) rest (wfail c) (wlog c))
     (Config localConfig)).2 = None →
  accept p localConfig c sched =
    match interactWithClient p
            (WriteMsg (mkConn (connRemoteAddr c) rest (wfail c) (wlog c))
               (Config localConfig)).1
            remoteConfig [] sched with
    | Returned c' recovered err => Accepted c' true recovered (Failed <$> err)
    | Panicked e => AcceptPanicked true e
    | Pending => AcceptPending
    end.
Proof.
  intros Hin Hw. unfold accept, ReadMsg, ExecCmd. rewrite Hin.
  destruct (WriteMsg _ (Config localConfig)) as [c1 e1]. simpl in Hw.
  by subst e1.
Qed.

Lemma accept_inv (c c' : Conn) (sched : list bool) (closed : bool)
    (recovered : list Recover) :
  accept p localConfig c sched = Accepted c' closed recovered None →
  ∃ remoteConfig rest,
    inbound c = Config remoteConfig :: rest
    ∧ (WriteMsg (mkConn (connRemoteAddr c) rest (wfail c) (wlog c))
         (Config localConfig)).2 = None
    ∧ interactWithClient p
        (WriteMsg (mkConn (connRemoteAddr c) rest (wfail c) (wlog c))
           (Config localConfig)).1
        remoteConfig [] sched
      = Returned c' recovered None
    ∧ closed = true.
Proof.
  unfold accept, ReadMsg, ExecCmd.
  destruct (inbound c) as [|msg rest] eqn:Hin; [done|].
  destruct msg as [remoteConfig| | | | | |]; try done.
  destruct (WriteMsg _ (Config localConfig)) as [c1 [e1|]] eqn:HW; [done|].
  destruct (interactWithClient p c1 remoteConfig [] sched)
    as [c2 rec2 [err2|]| |] eqn:Hrun; try done.
  intros [= <- <- <-]. exists remoteConfig, rest.
  rewrite HW. simpl. by rewrite Hrun.
Qed.

End HandshakeFacts.

(** Property X19.  [accept] wants a [Config] first: when the first thing read
    from the connection is a failure or any other message, it returns an
    error (the transport's, or its own), having written nothing, started no
    session and emitted no [Recover] event, and closes the connection. *)
Theorem accept_needs_Config (p : Peer) (localConfig : gmap string string)
    (c : Conn) (sched : list bool)
    (Hfirst : ∀ remoteConfig rest, inbound c ≠ Config remoteConfig :: rest) :
  ∃ c' err,
    accept p localConfig c sched = Accepted c' true [] (Some err)
    ∧ wlog c' = wlog c
    ∧ (inbound c = [] → err = Failed TransportError ∧ c' = c)
    ∧ (inbound c ≠ [] →
       err = ExpectedRemoteConfig ∧ inbound c' = tail (inbound c)).
Proof.
  unfold accept, ReadMsg.
  destruct (inbound c) as [|msg rest] eqn:Hin.
  - exists c, (Failed TransportError). by split_and!.
  - destruct msg as [remoteConfig| | | | | |];
      [by destruct (Hfirst remoteConfig rest)|..].
    all: eexists _, ExpectedRemoteConfig; by split_and!.
Qed.

Lemma accept_needs_Config_witness :
  ∃ c',
    accept leafPeer ∅ leafConn [true; true]
    = Accepted c' true [] (Some ExpectedRemoteConfig)
    ∧ wlog c' = wlog leafConn.
Proof.
  destruct (accept_needs_Config leafPeer ∅ leafConn [true; true])
    as (c' & err & Hrun & Hlog & _ & Herr).
  - intros remoteConfig rest. discriminate.
  - destruct Herr as [-> _]; [discriminate|]. by exists c'.
Defined.

(** Property X20.  The handshake checks its write: when the remote's [Config]
    was read and writing the local [Config] fails, [accept] returns that
    error at once; the session does not start, so that no request is
    written and no [Recover] event emitted. *)
Theorem accept_checks_config_write (p : Peer)
    (localConfig remoteConfig : gmap string string) (c : Conn)
    (rest : list ReconMsg) (w : list bool) (sched : list bool)
    (Hin : inbound c = Config remoteConfig :: rest)
    (Hfail : wfail c = true :: w) :
  ∃ c',
    accept p localConfig c sched
    = Accepted c' true [] (Some (Failed TransportError))
    ∧ wlog c' = wlog c ++ [(Config localConfig, false)]
    ∧ requestsWritten c' = requestsWritten c
    ∧ inbound c' = rest.
Proof.
  unfold accept, ReadMsg. rewrite Hin. unfold WriteMsg. simpl.
  rewrite Hfail. eexists. split; [done|]. simpl. split_and!; try done.
  unfold requestsWritten, sent. simpl.
  rewrite fmap_app, filter_app. simpl.
  rewrite filter_cons, filter_nil. simpl. by rewrite app_nil_r.
Qed.

Lemma accept_checks_config_write_witness :
  ∃ c',
    accept leafPeer ∅ (mkConn "remote" [Config ∅; SyncFail] [true] [])
      [true; true]
    = Accepted c' true [] (Some (Failed TransportError))
    ∧ wlog c' = [(Config ∅, false)].
Proof.
  destruct (accept_checks_config_write leafPeer ∅ ∅
              (mkConn "remote" [Config ∅; SyncFail] [true] [])
              [SyncFail] [] [true; true] eq_refl eq_refl)
    as (c' & Hrun & Hlog & _).
  by exists c'.
Defined.

(** Property X21.  When [accept] returns no error, the connection carried a
    [Config] first, and on it [accept] has written, in this order, its own
    [Config], the request for the root of the tree under the empty key, the
    rest of the session, and [Done]; the connection is closed. *)
Theorem accept_success (p : Peer) (localConfig : gmap string string)
    (c c' : Conn) (sched : list bool) (closed : bool)
    (recovered : list Recover)
    (Hrun : accept p localConfig c sched = Accepted c' closed recovered None) :
  closed = true
  ∧ ∃ remoteConfig rest root middle consumed,
      inbound c = Config remoteConfig :: rest
      ∧ Root p = inr root
      ∧ sent c'
        = sent c ++ Config localConfig
                 :: requestMsg p (mkRequestEntry root [])
                 :: middle ++ [Done]
      ∧ rest = consumed ++ inbound c'
      ∧ consumed ≠ [].
Proof.
  apply accept_inv in Hrun as (remoteConfig & rest & Hin & Hw & Hrun & ->).
  split; [done|].
  destruct (Root p) as [e0|root] eqn:Hroot.
  { unfold interactWithClient in Hrun. by rewrite Hroot in Hrun. }
  destruct (interactWithClient_asks p _ c' remoteConfig [] sched root
              recovered Hroot Hrun)
    as (recon & middle & Hreach & Hq & Hb & Hasked & Hsent & Hin').
  destruct (reachable_inOrder p _ root [] recon Hreach)
    as (answered & consumed & Hcons & Hreq & Hlen).
  rewrite inbound_WriteMsg in Hcons. simpl in Hcons.
  rewrite sent_WriteMsg in Hasked.
  exists remoteConfig, rest, root, middle, consumed. split_and!; try done.
  - rewrite Hsent, Hasked. unfold sent at 1. simpl.
    by rewrite <- !app_assoc.
  - by rewrite Hin'.
  - intros ->. simpl in Hlen. apply nil_length_inv in Hlen as ->.
    assert (Hnone : awaited recon = []) by (unfold awaited; by rewrite Hb).
    rewrite Hnone in Hreq. simpl in Hreq. rewrite app_nil_r in Hreq.
    apply (f_equal length) in Hreq. revert Hreq.
    unfold requestsWritten. rewrite Hasked, sent_WriteMsg.
    rewrite <- app_assoc, !filter_app. simpl.
    rewrite (filter_cons _ (Config localConfig)). simpl.
    rewrite (filter_cons _ (requestMsg p _)).
    rewrite isRequest_requestMsg. rewrite decide_True by done.
    rewrite !length_app. simpl. lia.
Qed.

Lemma accept_success_witness :
  ∃ c' recovered middle,
    accept leafPeer ∅
      (mkConn "remote" [Config ∅; FullElements remoteSet] [] []) [true; true]
    = Accepted c' true recovered None
    ∧ sent c'
      = Config ∅ :: requestMsg leafPeer (mkRequestEntry leafRoot [])
                 :: middle ++ [Done].
Proof.
  destruct (accept leafPeer ∅
              (mkConn "remote" [Config ∅; FullElements remoteSet] [] [])
              [true; true])
    as [c' closed recovered err| |] eqn:Hrun;
    [|vm_compute in Hrun; discriminate..].
  assert (Herr : err = None).
  { pose proof Hrun as Hval. vm_compute in Hval. by injection Hval as _ _ _ <-. }
  subst err.
  destruct (accept_success leafPeer ∅ _ c' [true; true] closed recovered Hrun)
    as (-> & rc & rest & root & middle & consumed & _ & Hroot & Hsent & _).
  injection Hroot as <-.
  by exists c', recovered, middle.
Defined.



(** ** Failed writes change nothing *)

Section Blind.

Context (p : Peer).

#[local] Arguments WriteMsg : simpl never.

Lemma WriteMsg_erase (c : Conn) (msg : ReconMsg) :
  (WriteMsg (eraseConn c) msg).1 = eraseConn (WriteMsg c msg).1.
Proof.
  unfold WriteMsg, eraseConn. simpl.
  destruct (wfail c) as [|[] w]; simpl; by rewrite fmap_app.
Qed.

Lemma recv_erase (c : Conn) :
  recv (eraseConn c) = ((recv c).1, eraseConn (recv c).2).
Proof.
  unfold recv, eraseConn. simpl.
  destruct (inbound c) as [|m rest] eqn:Hin; simpl; [|done].
  by rewrite Hin.
Qed.

Lemma sendRequest_erase (s : reconWithClient) (req : option requestEntry) :
  sendRequest p (erase s) req = (s' ←! sendRequest p s req; Ok (erase s')).
Proof.
  destruct req as [req|]; [|done].
  rewrite !sendRequest_Some.
  change (conn (erase s)) with (eraseConn (conn s)).
  rewrite WriteMsg_erase. reflexivity.
Qed.

Lemma handleReply_erase (s : reconWithClient) (msg : option ReconMsg)
    (req : option requestEntry) :
  handleReply p (erase s) msg req
  = (r ←! handleReply p s msg req; Ok (erase r.1, r.2)).
Proof.
  destruct msg as [[]|]; try done.
  - destruct req as [req|]; [|done].
    rewrite !handleReply_FullElements.
    change (conn (erase s)) with (eraseConn (conn s)).
    rewrite WriteMsg_erase. reflexivity.
  - destruct req as [req|]; [|done].
    destruct (PrefixNode.IsLeaf (node req)) eqn:Hl.
    + by rewrite !handleReply_SyncFail_leaf.
    + by rewrite !handleReply_SyncFail_internal.
Qed.

Lemma popRequest_erase (s : reconWithClient) :
  popRequest (erase s) = ((popRequest s).1, erase (popRequest s).2).
Proof. unfold popRequest, erase. simpl. by destruct (requestQ s). Qed.

(** A pass on the connection with no failed write is the pass, with no
    failed write. *)
Lemma loopBody_erase (ready : bool) (s : reconWithClient) :
  loopBody p ready (erase s)
  = (r ←! loopBody p ready s; Ok (erase r.1, r.2)).
Proof.
  assert (Hsend :
    (recon' ←! sendRequest p (popRequest (erase s)).2
                  (popRequest (erase s)).1;
     Ok (recon', @None error))
    = (r ←! (recon' ←! sendRequest p (popRequest s).2 (popRequest s).1;
             Ok (recon', @None error));
       Ok (erase r.1, r.2))).
  { rewrite popRequest_erase. simpl. rewrite sendRequest_erase.
    by destruct (sendRequest p (popRequest s).2 (popRequest s).1). }
  assert (Hreply : ∀ bq req,
    handleReply p
      (mkReconWithClient (requestQ (erase s)) bq (rcvrSet (erase s))
         (flushing (erase s)) (recv (conn (erase s))).2)
      (recv (conn (erase s))).1 req
    = (r ←! handleReply p
              (mkReconWithClient (requestQ s) bq (rcvrSet s) (flushing s)
                 (recv (conn s)).2)
              (recv (conn s)).1 req;
       Ok (erase r.1, r.2))).
  { intros bq req. simpl. rewrite recv_erase. simpl.
    by rewrite <- handleReply_erase. }
  destruct (bottomQ s) as [|b bq] eqn:Hb.
  { rewrite (loopBody_idle p ready (erase s) Hb).
    by rewrite (loopBody_idle p ready s Hb). }
  destruct (state b) eqn:Hs.
  2:{ rewrite (loopBody_barrier p ready (erase s) b bq Hb Hs).
      by rewrite (loopBody_barrier p ready s b bq Hb Hs). }
  destruct ready.
  { rewrite (loopBody_reply p (erase s) b bq Hb Hs).
    rewrite (loopBody_reply p s b bq Hb Hs). apply Hreply. }
  destruct (windowClosed p s) eqn:Hw.
  - destruct (decide (flushing s = true)) as [Hf|Hf];
      [|apply not_true_is_false in Hf].
    + rewrite (loopBody_block p (erase s) b bq Hb Hs Hw Hf).
      rewrite (loopBody_block p s b bq Hb Hs Hw Hf). apply Hreply.
    + rewrite (loopBody_flush p (erase s) b bq Hb Hs Hw Hf).
      by rewrite (loopBody_flush p s b bq Hb Hs Hw Hf).
  - rewrite (loopBody_pipeline p (erase s) b bq Hb Hs Hw).
    by rewrite (loopBody_pipeline p s b bq Hb Hs Hw).
Qed.

Lemma sessionLoop_erase (sched : list bool) :
  ∀ s, sessionLoop p sched (erase s)
       = match sessionLoop p sched s with
         | LoopDone s' => LoopDone (erase s')
         | LoopErr s' err => LoopErr (erase s') err
         | LoopPanic e => LoopPanic e
         | LoopPending s' => LoopPending (erase s')
         end.
Proof.
  induction sched as [|ready sched IH]; intros s; simpl.
  - change (isDone (erase s)) with (isDone s). by destruct (isDone s).
  - change (isDone (erase s)) with (isDone s). destruct (isDone s); [done|].
    rewrite loopBody_erase.
    destruct (loopBody p ready s) as [[s' [err|]]|e]; simpl; [done| |done].
    apply IH.
Qed.

End Blind.

(** Property X23.  The session is blind to failed writes: on a connection
    where no write fails, [interactWithClient] attempts the same messages in
    the same order, consumes the same replies, emits the same [Recover]
    events and returns the same error as on the connection where some
    do. *)
Theorem session_blind_to_write_failures (p : Peer) (c c' : Conn)
    (remoteConfig : gmap string string) (bitstring : Bitstring)
    (sched : list bool) (recovered : list Recover) (err : option error)
    (Hrun : interactWithClient p c remoteConfig bitstring sched
            = Returned c' recovered err) :
  interactWithClient p (eraseConn c) remoteConfig bitstring sched
  = Returned (eraseConn c') recovered err
  ∧ sent (eraseConn c') = sent c'
  ∧ inbound (eraseConn c') = inbound c'.
Proof.
  split; [|split; [|done]].
  - unfold interactWithClient in *.
    destruct (Root p) as [e0|root]; [by injection Hrun as <- <- <-|].
    change (startSession (eraseConn c) root bitstring)
      with (erase (startSession c root bitstring)).
    rewrite sessionLoop_erase.
    destruct (sessionLoop p sched (startSession c root bitstring))
      as [recon|recon e|e|recon]; try done.
    + change (conn (erase recon)) with (eraseConn (conn recon)).
      rewrite (surjective_pairing (WriteMsg (eraseConn (conn recon)) Done)).
      rewrite WriteMsg_erase.
      change (rcvrSet (erase recon)) with (rcvrSet recon).
      destruct (WriteMsg (conn recon) Done) as [c1 e1].
      by injection Hrun as <- <- <-.
    + by injection Hrun as <- <- <-.
  - unfold sent, eraseConn. simpl. rewrite <- list_fmap_compose.
    by apply list_fmap_ext.
Qed.

Lemma session_blind_to_write_failures_witness :
  ∃ c' recovered,
    interactWithClient leafPeer brokenConn ∅ [] [true; true]
      = Returned c' recovered None
    ∧ interactWithClient leafPeer (eraseConn brokenConn) ∅ [] [true; true]
      = Returned (eraseConn c') recovered None.
Proof.
  destruct (interactWithClient leafPeer brokenConn ∅ [] [true; true])
    as [c' recovered err| |] eqn:Hrun;
    [|vm_compute in Hrun; discriminate..].
  assert (Herr : err = None).
  { pose proof Hrun as Hval. vm_compute in Hval. by injection Hval as _ _ <-. }
  subst err.
  destruct (session_blind_to_write_failures leafPeer brokenConn c' ∅ []
              [true; true] recovered None Hrun) as [Hblind _].
  by exists c', recovered.
Defined.

(** ** The size of the bottom queue *)

(** Property X24.  The bottom queue stays short: at every head of the loop
    it holds at most [max MaxOutstandingReconRequests 0 + 1] entries while
    the session is not flushing, and one more, the barrier, while it
    is. *)
Theorem bottomQ_bounded (p : Peer) (c : Conn) (root : PrefixNode.t)
    (bitstring : Bitstring) (s : reconWithClient)
    (Hreach : reachable p (startSession c root bitstring) s) :
  Z.of_nat (length (bottomQ s))
  ≤ Z.max (MaxOutstandingReconRequests p) 0 + 1
    + (if flushing s then 1 else 0).
Proof.
  assert (Hinv :
    Z.of_nat (inFlight s) ≤ Z.max (MaxOutstandingReconRequests p) 0 + 1
    ∧ barriers s = (if flushing s then 1 else 0)%nat).
  { apply (reachable_ind_pass p
             (λ s, Z.of_nat (inFlight s)
                   ≤ Z.max (MaxOutstandingReconRequests p) 0 + 1
                   ∧ barriers s = (if flushing s then 1 else 0)%nat)
             (startSession c root bitstring) s).
    - apply startSession_wellFormed.
    - unfold inFlight, barriers. simpl. split; [lia|done].
    - intros s1 s2 e _ [Hfl Hbar] Hpass. split.
      + by eapply pass_inFlight.
      + by eapply pass_barrier_count.
    - exact Hreach. }
  destruct Hinv as [Hfl Hbar].
  assert (Hlen : (length (bottomQ s) = inFlight s + barriers s)%nat).
  { unfold inFlight, barriers.
    induction (bottomQ s) as [|b bq IH]; [done|].
    rewrite !filter_cons. simpl.
    destruct (isBottom b); simpl; lia. }
  rewrite Hlen, Hbar. destruct (flushing s); lia.
Qed.

Lemma bottomQ_bounded_witness :
  ∃ s, passes twoLeafPeer [true; true; true; false; false] twoLeafStart
       = Some s
       ∧ length (bottomQ s) = 3%nat
       ∧ Z.of_nat (length (bottomQ s))
         ≤ Z.max (MaxOutstandingReconRequests twoLeafPeer) 0 + 1
           + (if flushing s then 1 else 0).
Proof.
  destruct (passes twoLeafPeer [true; true; true; false; false] twoLeafStart)
    as [s|] eqn:Hrun; [|by vm_compute in Hrun].
  exists s. split; [reflexivity|].
  assert (Hreach : reachable twoLeafPeer twoLeafStart s).
  { eapply passes_reachable; [apply reachable_start | exact Hrun]. }
  pose proof (bottomQ_bounded twoLeafPeer (mkConn "remote" [SyncFail] [] [])
                twoLeafRoot [] s Hreach) as Hbound.
  vm_compute in Hrun. injection Hrun as <-.
  split; [reflexivity|]. exact Hbound.
Defined.

(** ** The event *)

Section Event.

Context (p : Peer).

Lemma pass_addr (s s' : reconWithClient) (e : option error) :
  pass p s s' e → connRemoteAddr (conn s') = connRemoteAddr (conn s).
Proof.
  assert (Hw : ∀ c msg, connRemoteAddr (WriteMsg c msg).1 = connRemoteAddr c).
  { intros c msg. destruct (WriteMsg c msg) as [c1 e1] eqn:HW.
    by apply WriteMsg_inv in HW as (_ & _ & Ha). }
  assert (Hr : ∀ c, connRemoteAddr (recv c).2 = connRemoteAddr c).
  { intros c. destruct (recv c) as [m c1] eqn:Hrecv.
    by apply recv_inv in Hrecv as (_ & Ha & _). }
  destruct 1 as [req rq Hq Hwin | b bq Hb Hs | b bq req s' e Hb Hs Hr' Hh
                | b bq Hb Hs Hf Hw']; simpl; try done.
  apply handleReply_cases in Hh
    as [(_ & _ & _ & ->) | [(zs & _ & _ & ->)
       | [(zs & _ & _ & ->) | (_ & _ & ->)]]]; simpl; by rewrite ?Hw, Hr.
Qed.

End Event.

(** Property X25.  [interactWithClient] emits at most one [Recover] event;
    the event names the remote address of the connection, lists at least
    one element, and its [RemoteConfig] is left empty, whatever remote
    configuration the session was given. *)
Theorem Recover_event_fields (p : Peer) (c c' : Conn)
    (remoteConfig : gmap string string) (bitstring : Bitstring)
    (sched : list bool) (recovered : list Recover) (err : option error)
    (Hrun : interactWithClient p c remoteConfig bitstring sched
            = Returned c' recovered err) :
  (length recovered ≤ 1)%nat
  ∧ connRemoteAddr c' = connRemoteAddr c
  ∧ ∀ r, r ∈ recovered →
         RemoteAddr r = connRemoteAddr c
         ∧ RemoteConfig r = ∅
         ∧ RemoteElements r ≠ [].
Proof.
  unfold interactWithClient in Hrun.
  destruct (Root p) as [e0|root].
  { injection Hrun as <- <- _. split_and!; [simpl; lia|done|].
    intros r Hr. by apply elem_of_nil in Hr. }
  pose proof (sessionLoop_inv p
                (λ s, connRemoteAddr (conn s) = connRemoteAddr c)
                (λ s1 s2 e _ Hinv Hpass,
                   eq_trans (pass_addr p s1 s2 e Hpass) Hinv)
                sched (startSession c root bitstring)
                (startSession_wellFormed c root bitstring) eq_refl) as Hinv.
  destruct (sessionLoop p sched (startSession c root bitstring))
    as [recon|recon e|e|recon]; try done.
  - destruct Hinv as [Haddr _].
    destruct (WriteMsg (conn recon) Done) as [c1 e1] eqn:HW.
    apply WriteMsg_inv in HW as (_ & _ & Ha1).
    injection Hrun as <- <- _.
    assert (Hc1 : connRemoteAddr c1 = connRemoteAddr c) by congruence.
    split_and!; [case_bool_decide; simpl; lia | done |].
    intros r Hr. case_bool_decide as Hlen; [|by apply elem_of_nil in Hr].
    apply list_elem_of_singleton in Hr as ->. simpl.
    split_and!; [done|done|].
    destruct (Items (rcvrSet recon)); [simpl in Hlen; lia|done].
  - injection Hrun as <- <- _. split_and!; [simpl; lia|done|].
    intros r Hr. by apply elem_of_nil in Hr.
Qed.

Lemma Recover_event_fields_witness :
  ∃ c' r,
    interactWithClient leafPeer leafConn
      {["version" := "1.0"]} [] [true; true]
      = Returned c' [r] None
    ∧ RemoteAddr r = "remote" ∧ RemoteConfig r = ∅.
Proof.
  destruct (interactWithClient leafPeer leafConn {["version" := "1.0"]} []
              [true; true])
    as [c' recovered err| |] eqn:Hrun;
    [|vm_compute in Hrun; discriminate..].
  destruct (Recover_event_fields leafPeer leafConn c' {["version" := "1.0"]}
              [] [true; true] recovered err Hrun) as (_ & _ & Hev).
  pose proof Hrun as Hval. vm_compute in Hval.
  injection Hval as <- <- <-.
  do 2 eexists. split; [exact Hrun|].
  destruct (Hev _ (proj2 (list_elem_of_singleton _ _) eq_refl))
    as (Haddr & Hcfg & _).
  split; [exact Haddr | exact Hcfg].
Defined.
